(** * A static document catalog: grouping, filtering, rendering, search

    Shallow embedding of [script.js] and [data.js].  The script reads the
    [files] array, groups the entries by category, sorts every group
    newest-first, renders the groups as HTML into [#app], and re-renders the
    filtered catalog when the search box changes (debounced by 150 ms).

    Conventions of the embedding.
    - A JavaScript string is a [string], read as the UTF-8 bytes of its text.
      What the script itself does with characters (the four replacements of
      [escHtml], the substring search of [includes], the key equality of
      [Map]) acts on ASCII characters or on whole substrings and is the same
      on the bytes as on the text.
    - A JavaScript number that the script computes is an [option Z]: the
      time values of [Date] are integers of milliseconds, and [None] is NaN.
    - The built-ins whose result is decided by the host and its locale tables
      ([Date] parsing, [toLocaleDateString], [toLowerCase], [localeCompare])
      are the fields of the class [Host]; [utc_host] is one host to evaluate
      the definitions with.
    - [Array.prototype.sort] is a stable sort (ECMAScript 2019).  Where the
      comparator is consistent the algorithm does not show: every sort that
      conforms returns the same list ([sort_by_canonical],
      [conforming_canonical]), and there the sort is embedded as the stable
      insertion sort [sort_by].  Where the comparator is not consistent (a
      date that does not parse makes it NaN, which counts as a tie with
      every date) ECMAScript leaves the order to the engine, and the engines
      differ: [v8_sort] is the sort of V8 on short arrays, and
      [four_engines_differ] shows it apart from [sort_by].
      [groupByCategory] is written with [sort_by]; [groupWith] has the sort
      as a parameter.  A property that speaks of the order of records is
      stated for dates that parse, or for every conforming sort; in a bucket
      with a date that does not parse, the order that [groupByCategory] and
      the page built from it give is that of [sort_by] and need not be that
      of an engine. *)

From Stdlib Require Import String Ascii List ZArith Lia Bool Arith.
From Stdlib Require Import Permutation Sorted DecimalString.
Import ListNotations.
Open Scope string_scope.

(* ------------------------------------------------------------------------- *)
(** ** Strings *)

Module Str.

(** The double quote, line feed and the other characters the script names. *)
Definition dquote : ascii := "034"%char.
Definition amp : ascii := "&"%char.
Definition lt_sign : ascii := "<"%char.
Definition gt_sign : ascii := ">"%char.
Definition nl : string := String "010"%char EmptyString.
Definition dq : string := String dquote EmptyString.

(** [q s] is [s] between double quotes, as in [class="card"]. *)
Definition q (s : string) : string := dq ++ s ++ dq.

(** Number of occurrences of the character [c] in [s]. *)
Fixpoint count_char (c : ascii) (s : string) : nat :=
  match s with
  | EmptyString => 0%nat
  | String d r => ((if Ascii.eqb d c then 1 else 0) + count_char c r)%nat
  end.

(** [s.replace(/c/g, rep)] for a one-character pattern [c]. *)
Fixpoint replace_char (c : ascii) (rep : string) (s : string) : string :=
  match s with
  | EmptyString => EmptyString
  | String d r =>
      if Ascii.eqb d c then rep ++ replace_char c rep r
      else String d (replace_char c rep r)
  end.

(** [s.startsWith(p)]. *)
Fixpoint starts_with (p s : string) : bool :=
  match p, s with
  | EmptyString, _ => true
  | String _ _, EmptyString => false
  | String a p', String b s' => Ascii.eqb a b && starts_with p' s'
  end.

(** [s.includes(p)]: [p] occurs in [s] at some position. *)
Fixpoint includes (s p : string) : bool :=
  starts_with p s ||
  match s with
  | EmptyString => false
  | String _ r => includes r p
  end.

(** [arr.join(sep)]. *)
Fixpoint join (sep : string) (l : list string) : string :=
  match l with
  | [] => EmptyString
  | [x] => x
  | x :: r => x ++ sep ++ join sep r
  end.

End Str.
Import Str.

(* ------------------------------------------------------------------------- *)
(** ** The records of [data.js] *)

Record FileObject : Type := mkFile {
  category : string;
  title : string;
  description : string;
  file : string;
  updated : string
}.

Definition FileObject_eq_dec (a b : FileObject) : {a = b} + {a <> b}.
Proof. repeat decide equality. Defined.

(* ------------------------------------------------------------------------- *)
(** ** Helpers of [script.js] that need no host *)

(** [escHtml]: four global replacements, in the order of the source. *)
Definition escHtml (s : string) : string :=
  replace_char dquote "&quot;"
    (replace_char gt_sign "&gt;"
       (replace_char lt_sign "&lt;"
          (replace_char amp "&amp;" s))).

(** The entity that stands for one character; a character that is not
    special stands for itself. *)
Definition entity (c : ascii) : string :=
  if Ascii.eqb c amp then "&amp;"
  else if Ascii.eqb c lt_sign then "&lt;"
  else if Ascii.eqb c gt_sign then "&gt;"
  else if Ascii.eqb c dquote then "&quot;"
  else String c EmptyString.

(** Escaping character by character, in one pass. *)
Fixpoint escape_each (s : string) : string :=
  match s with
  | EmptyString => EmptyString
  | String c r => entity c ++ escape_each r
  end.

(** What follows an [&] that opens one of the four entities. *)
Definition opens_entity (r : string) : bool :=
  starts_with "amp;" r || starts_with "lt;" r
  || starts_with "gt;" r || starts_with "quot;" r.

(** Every [&] of the text opens one of the four entities. *)
Fixpoint amp_guarded (s : string) : bool :=
  match s with
  | EmptyString => true
  | String c r => (negb (Ascii.eqb c amp) || opens_entity r) && amp_guarded r
  end.

(** A text is well escaped when it holds none of [<], [>], the double
    quote, and every [&] in it opens one of the four entities. *)
Fixpoint well_escaped (s : string) : bool :=
  match s with
  | EmptyString => true
  | String c r =>
      if Ascii.eqb c lt_sign || Ascii.eqb c gt_sign || Ascii.eqb c dquote then false
      else if Ascii.eqb c amp then opens_entity r && well_escaped r
      else well_escaped r
  end.

(* ------------------------------------------------------------------------- *)
(** ** [String.prototype.trim] *)

(** The white space and line terminators of ECMAScript, by their UTF-8
    bytes: TAB, LF, VT, FF, CR, SP; U+00A0; U+1680; U+2000 to U+200A, U+2028,
    U+2029, U+202F; U+205F; U+3000; U+FEFF. *)
Definition ws1 (a : ascii) : bool :=
  let n := nat_of_ascii a in (((9 <=? n) && (n <=? 13)) || (n =? 32))%nat.

Definition ws2 (a b : ascii) : bool :=
  ((nat_of_ascii a =? 194) && (nat_of_ascii b =? 160))%nat.

Definition ws3 (a b c : ascii) : bool :=
  let x := nat_of_ascii a in
  let y := nat_of_ascii b in
  let z := nat_of_ascii c in
  (((x =? 225) && (y =? 154) && (z =? 128))
   || ((x =? 226) && (y =? 128)
       && (((128 <=? z) && (z <=? 138)) || (z =? 168) || (z =? 169) || (z =? 175)))
   || ((x =? 226) && (y =? 129) && (z =? 159))
   || ((x =? 227) && (y =? 128) && (z =? 128))
   || ((x =? 239) && (y =? 187) && (z =? 191)))%nat.

(** [s.trimStart()]: white space of one, two or three bytes is dropped
    from the head. *)
Fixpoint trimStart (s : string) : string :=
  match s with
  | String a r1 =>
      if ws1 a then trimStart r1
      else match r1 with
           | String b r2 =>
               if ws2 a b then trimStart r2
               else match r2 with
                    | String c r3 => if ws3 a b c then trimStart r3 else s
                    | EmptyString => s
                    end
           | EmptyString => s
           end
  | EmptyString => s
  end.

(** [s] holds white space only. *)
Definition blank (s : string) : bool :=
  match trimStart s with EmptyString => true | String _ _ => false end.

(** [s.trimEnd()]: the text is kept up to the point where only white space
    follows. *)
Fixpoint trimEnd (s : string) : string :=
  match s with
  | EmptyString => EmptyString
  | String a r => if blank s then EmptyString else String a (trimEnd r)
  end.

Definition trim (s : string) : string := trimEnd (trimStart s).

(* ------------------------------------------------------------------------- *)
(** ** [Array.prototype.sort] *)

Section Sort.
Context {A : Type}.
Variable comparefn : A -> A -> option Z.

(** SortCompare of ECMAScript: a comparator result that is NaN counts
    as [+0]. *)
Definition SortCompare (x y : A) : Z :=
  match comparefn x y with
  | Some v => v
  | None => 0%Z
  end.

(** [x] goes behind the elements it compares greater than. *)
Fixpoint insert (x : A) (l : list A) : list A :=
  match l with
  | [] => [x]
  | y :: r => if (0 <? SortCompare x y)%Z then y :: insert x r else x :: l
  end.

(** A stable insertion sort, from the right: what every conforming sort
    returns where the comparator is consistent. *)
Fixpoint sort_by (l : list A) : list A :=
  match l with
  | [] => []
  | x :: r => insert x (sort_by r)
  end.

(** The comparator lets [x] stand before [y]. *)
Definition before (x y : A) : Prop := (SortCompare x y <= 0)%Z.

(** The comparator lets each of [x] and [y] stand before the other. *)
Definition tie (x y : A) : bool :=
  ((SortCompare x y <=? 0) && (SortCompare y x <=? 0))%Z.

End Sort.

(* ------------------------------------------------------------------------- *)
(** ** [Map]: keys in insertion order *)

Section JsMap.
Context {V : Type}.

Definition JsMap : Type := list (string * V).

Definition map_has (k : string) (m : JsMap) : bool :=
  existsb (fun e => String.eqb (fst e) k) m.

Fixpoint map_get (k : string) (m : JsMap) : option V :=
  match m with
  | [] => None
  | (k', v) :: r => if String.eqb k' k then Some v else map_get k r
  end.

(** [m.set(k, v)]: a present key keeps its place, a new key goes last. *)
Fixpoint map_set (k : string) (v : V) (m : JsMap) : JsMap :=
  match m with
  | [] => [(k, v)]
  | (k', v') :: r =>
      if String.eqb k' k then (k', v) :: r else (k', v') :: map_set k v r
  end.

(** The value stored under [k], changed in place by [f]. *)
Fixpoint map_update (k : string) (f : V -> V) (m : JsMap) : JsMap :=
  match m with
  | [] => []
  | (k', v) :: r =>
      if String.eqb k' k then (k', f v) :: r else (k', v) :: map_update k f r
  end.

(** [new Map(entries)]. *)
Definition Map_from (entries : list (string * V)) : JsMap :=
  fold_left (fun m e => map_set (fst e) (snd e) m) entries [].

Definition map_keys (m : JsMap) : list string := map fst m.

End JsMap.
Arguments JsMap : clear implicits.

(* ------------------------------------------------------------------------- *)
(** ** The host *)

(** What the script asks of the engine and its locale data.
    - [Date_parse s] is the time value of [new Date(s)], [None] when the
      date is invalid ([getTime] is then NaN).
    - [toLocaleDateString t] is the en-US text (numeric year, short month,
      numeric day) of a valid time value.
    - [localeCompare a b] is negative, zero or positive. *)
Class Host : Type := {
  Date_parse : string -> option Z;
  toLocaleDateString : Z -> string;
  toLowerCase : string -> string;
  localeCompare : string -> string -> Z
}.

(** Subtraction of two numbers; NaN is contagious.  A time value is below
    8.64e15 in magnitude, so a difference is nonzero, and keeps its sign,
    whenever the exact one does. *)
Definition num_sub (a b : option Z) : option Z :=
  match a, b with
  | Some x, Some y => Some (x - y)%Z
  | _, _ => None
  end.

(* ------------------------------------------------------------------------- *)
(** ** [script.js] *)

Section Script.
Context {host : Host}.

(** [new Date(str).getTime()]. *)
Definition dateValue (str : string) : option Z := Date_parse str.

(** [new Date(str + "T00:00:00").toLocaleDateString("en-US", ...)]; an
    invalid date prints as the text [Invalid Date]. *)
Definition formatDate (str : string) : string :=
  match Date_parse (str ++ "T00:00:00") with
  | Some t => toLocaleDateString t
  | None => "Invalid Date"
  end.

(** The comparator of the inner sort:
    [(a, b) => dateValue(b.updated) - dateValue(a.updated)]. *)
Definition newest_first (a b : FileObject) : option Z :=
  num_sub (dateValue (updated b)) (dateValue (updated a)).

(** The comparator of the outer sort: [(a, b) => a[0].localeCompare(b[0])]. *)
Definition by_name (a b : string * list FileObject) : option Z :=
  Some (localeCompare (fst a) (fst b)).

(** One turn of [fileList.forEach]: make the bucket when the category is
    new, then push the record onto the array stored in the map. *)
Definition add_file (m : JsMap (list FileObject)) (f : FileObject)
  : JsMap (list FileObject) :=
  let m1 := if map_has (category f) m then m else map_set (category f) [] m in
  map_update (category f) (fun entries => (entries ++ [f])%list) m1.

(** [groupByCategory]: collect the buckets, sort every bucket newest
    first, then build a new map from the entries sorted by category name. *)
Definition groupByCategory (fileList : list FileObject)
  : JsMap (list FileObject) :=
  let m := fold_left add_file fileList [] in
  let m := List.map (fun e => (fst e, sort_by newest_first (snd e))) m in
  Map_from (sort_by by_name m).

(** [renderCard]: the template literal, line by line. *)
Definition renderCard (f : FileObject) : string :=
  nl ++ "      <a" ++
  nl ++ "        class=" ++ q "card" ++
  nl ++ "        href=" ++ q (escHtml (file f)) ++
  nl ++ "        target=" ++ q "_blank" ++
  nl ++ "        rel=" ++ q "noopener noreferrer" ++
  nl ++ "        aria-label=" ++ q ("Open " ++ escHtml (title f)) ++
  nl ++ "      >" ++
  nl ++ "        <div class=" ++ q "card-body" ++ ">" ++
  nl ++ "          <p class=" ++ q "card-title" ++ ">"
     ++ escHtml (title f) ++ "</p>" ++
  nl ++ "          <p class=" ++ q "card-desc" ++ ">"
     ++ escHtml (description f) ++ "</p>" ++
  nl ++ "        </div>" ++
  nl ++ "        <time class=" ++ q "card-date"
     ++ " datetime=" ++ q (escHtml (updated f)) ++ ">" ++
  nl ++ "          " ++ formatDate (updated f) ++
  nl ++ "        </time>" ++
  nl ++ "      </a>".

(** [renderCategory]: the heading and the cards, joined by line feeds. *)
Definition renderCategory (categoryName : string) (entries : list FileObject)
  : string :=
  let cards := join nl (List.map renderCard entries) in
  nl ++ "      <section class=" ++ q "category"
     ++ " aria-labelledby=" ++ q ("cat-" ++ escHtml categoryName) ++ ">" ++
  nl ++ "        <h2 class=" ++ q "category-title"
     ++ " id=" ++ q ("cat-" ++ escHtml categoryName) ++ ">"
     ++ escHtml categoryName ++ "</h2>" ++
  nl ++ "        <div class=" ++ q "card-list" ++ ">" ++
  nl ++ "          " ++ cards ++
  nl ++ "        </div>" ++
  nl ++ "      </section>".

(** The document, as far as the script touches it: the [innerHTML] of the
    element [#app] ([None] when the page has no such element) and the number
    of animation-frame callbacks requested and not yet run.  The callback
    changes the style of the cards only. *)
Record Document : Type := mkDocument {
  app : option string;
  frames : nat
}.

(** The placeholder of an empty catalog. *)
Definition empty_state : string :=
  "<p class=" ++ q "empty-state" ++ ">No documents found.</p>".

(** [renderAll]; [None] is the TypeError of assigning [innerHTML] on
    [null]. *)
Definition renderAll (fileList : list FileObject) (d : Document)
  : option Document :=
  let grouped := groupByCategory fileList in
  match app d with
  | None => None
  | Some _ =>
      if (length grouped =? 0)%nat then
        Some (mkDocument (Some empty_state) (frames d))
      else
        let html :=
          fold_left (fun html e => html ++ renderCategory (fst e) (snd e))
                    grouped EmptyString in
        Some (mkDocument (Some html) (S (frames d)))
  end.

(** [filterFiles], with the global [files] as a parameter. *)
Definition filterFiles (files : list FileObject) (query : string)
  : list FileObject :=
  if String.eqb query EmptyString then files
  else
    let q := toLowerCase query in
    filter (fun f =>
              includes (toLowerCase (title f)) q
              || includes (toLowerCase (description f)) q
              || includes (toLowerCase (category f)) q)
           files.

(** *** The search controller and the event loop

    The page: the document, the value of the input [#search] ([None] when
    the page has none), whether the input listener is attached, the clock
    in milliseconds, the host's table of pending timeouts (identifier and
    due time, oldest first), the next identifier, and the variable
    [debounceTimer] of [initSearch].  [renders] is a ghost log: the time and
    the input value of every call of [renderAll] by the timer callback,
    newest first. *)
Record Page : Type := mkPage {
  doc : Document;
  input : option string;
  listening : bool;
  clock : Z;
  timers : list (nat * Z);
  next_timer : nat;
  debounceTimer : option nat;
  renders : list (Z * string)
}.

(** The delay given to [setTimeout], in milliseconds. *)
Definition debounce_delay : Z := 150.

(** [clearTimeout(id)]; an identifier that is undefined or not pending
    clears nothing. *)
Definition clearTimeout (id : option nat) (ts : list (nat * Z))
  : list (nat * Z) :=
  match id with
  | None => ts
  | Some i => filter (fun e => negb (fst e =? i)%nat) ts
  end.

(** The listener of the [input] event. *)
Definition on_input (p : Page) : Page :=
  let ts := clearTimeout (debounceTimer p) (timers p) in
  let id := next_timer p in
  mkPage (doc p) (input p) (listening p) (clock p)
         (ts ++ [(id, (clock p + debounce_delay)%Z)])%list (S id) (Some id)
         (renders p).

(** The timer callback, run at time [t]: it reads the value the input has
    now.  An exception of [renderAll] ends the callback and leaves the
    document as it was. *)
Definition on_timeout (files : list FileObject) (t : Z) (p : Page) : Page :=
  match input p with
  | None => p
  | Some v =>
      let filtered := filterFiles files (trim v) in
      let d := match renderAll filtered (doc p) with
               | Some d' => d'
               | None => doc p
               end in
      mkPage d (input p) (listening p) t (timers p) (next_timer p)
             (debounceTimer p) ((t, v) :: renders p)
  end.

(** The host runs a due timeout: it leaves the table, then its callback
    runs. *)
Definition fire (files : list FileObject) (p : Page) (e : nat * Z) : Page :=
  let p' := mkPage (doc p) (input p) (listening p) (clock p)
                   (filter (fun e' => negb (fst e' =? fst e)%nat) (timers p))
                   (next_timer p) (debounceTimer p) (renders p) in
  on_timeout files (snd e) p'.

(** Time passes until [t]: the timeouts due by then run, oldest first. *)
Definition advance (files : list FileObject) (t : Z) (p : Page) : Page :=
  let due := filter (fun e => (snd e <=? t)%Z) (timers p) in
  let p' := fold_left (fire files) due p in
  mkPage (doc p') (input p') (listening p') (Z.max (clock p') t) (timers p')
         (next_timer p') (debounceTimer p') (renders p').

(** What happens on the page: the user edits the search box (the value
    changes and an [input] event is dispatched), or the value changes with
    no event (a script or a form reset assigns it). *)
Inductive Event : Type :=
| Typed (t : Z) (v : string)
| Assigned (t : Z) (v : string).

(** The time of an event, in milliseconds. *)
Definition event_time (e : Event) : Z :=
  match e with Typed t _ | Assigned t _ => t end.

(** The search box, when the page has one, takes the value [v]. *)
Definition set_value (v : string) (p : Page) : Page :=
  mkPage (doc p) (match input p with Some _ => Some v | None => None end)
         (listening p) (clock p) (timers p) (next_timer p) (debounceTimer p)
         (renders p).

(** One event: time passes until the event, the value changes, and for an
    [input] event the listener runs when it is attached. *)
Definition step (files : list FileObject) (p : Page) (e : Event) : Page :=
  let p := advance files (event_time e) p in
  match e with
  | Typed _ v =>
      let p := set_value v p in
      if listening p then on_input p else p
  | Assigned _ v => set_value v p
  end.

(** The events [es], one after the other. *)
Definition run (files : list FileObject) (es : list Event) (p : Page) : Page :=
  fold_left (step files) es p.

(** [initSearch]: no input, no listener. *)
Definition initSearch (p : Page) : Page :=
  match input p with
  | None => p
  | Some _ =>
      mkPage (doc p) (input p) true (clock p) (timers p) (next_timer p)
             None (renders p)
  end.

(** [init]; [None] when [renderAll] throws, and then [initSearch] is not
    reached. *)
Definition init (files : list FileObject) (p : Page) : option Page :=
  match renderAll files (doc p) with
  | None => None
  | Some d =>
      Some (initSearch (mkPage d (input p) (listening p) (clock p) (timers p)
                               (next_timer p) (debounceTimer p) (renders p)))
  end.

(** A page that has just loaded, at time 0. *)
Definition loaded (d : Document) (box : option string) : Page :=
  mkPage d box false 0 [] 0 None [].

End Script.

(* ------------------------------------------------------------------------- *)
(** ** Bootstrap *)

Section Bootstrap.
Context {host : Host}.

(** [document.readyState]. *)
Inductive ReadyState : Type := Loading | Interactive | Complete.

(** The browser around the page: the ready state and how many times [init]
    is registered as a listener of [DOMContentLoaded]. *)
Record Browser : Type := mkBrowser {
  readyState : ReadyState;
  page : Page;
  onDOMContentLoaded : nat
}.

(** A call of [init] from the top level of the script or from a listener:
    when it throws, the page is as before. *)
Definition run_init (files : list FileObject) (p : Page) : Page :=
  match init files p with
  | Some p' => p'
  | None => p
  end.

(** The last statement of the script:
    [if (document.readyState === "loading") ... else init()]. *)
Definition boot (files : list FileObject) (b : Browser) : Browser :=
  match readyState b with
  | Loading => mkBrowser Loading (page b) (S (onDOMContentLoaded b))
  | _ => mkBrowser (readyState b) (run_init files (page b))
                   (onDOMContentLoaded b)
  end.

(** The document has been parsed: a document that was loading becomes
    interactive and its [DOMContentLoaded] listeners run, once each. *)
Definition dom_content_loaded (files : list FileObject) (b : Browser)
  : Browser :=
  match readyState b with
  | Loading =>
      mkBrowser Interactive
                (Nat.iter (onDOMContentLoaded b) (run_init files) (page b))
                (onDOMContentLoaded b)
  | _ => b
  end.

End Bootstrap.

(* ------------------------------------------------------------------------- *)
(** ** The sort of one engine, and grouping with an engine's sort

    [sort_by] is one stable sort.  The engines have their own.  [v8_sort] is
    what V8 (Node, Chrome) runs on an array of fewer than 64 elements: it
    takes the longest run at the head of the array that is already in order
    (ascending, or strictly descending and then reversed) and puts every
    further element in its place by binary search.  Longer arrays are there
    cut into several runs that are merged; that part is not modelled.  V8
    asks the comparator through SortCompare too. *)

Section EngineSort.
Context {A : Type}.
Variable comparefn : A -> A -> option Z.

(** How many elements of [l] go on with the run that ends in [prev]. *)
Fixpoint run_more (descending : bool) (prev : A) (l : list A) : nat :=
  match l with
  | [] => O
  | x :: r =>
      let order := SortCompare comparefn x prev in
      if descending then
        if (0 <=? order)%Z then O else S (run_more descending x r)
      else
        if (order <? 0)%Z then O else S (run_more descending x r)
  end.

(** CountAndMakeRun: the run at the head, made ascending, and the rest. *)
Definition count_and_make_run (l : list A) : list A * list A :=
  match l with
  | a0 :: a1 :: r =>
      let descending := (SortCompare comparefn a1 a0 <? 0)%Z in
      let n := S (S (run_more descending a1 r)) in
      (if descending then rev (firstn n l) else firstn n l, skipn n l)
  | _ => (l, [])
  end.

(** The binary search of BinaryInsertionSort: the place of [pivot] in the
    sorted [pre], looked for between [left] and [right]. *)
Fixpoint search_place (fuel : nat) (pivot : A) (pre : list A)
         (left right : nat) : nat :=
  match fuel with
  | O => left
  | S fuel' =>
      if (left <? right)%nat then
        let mid := (left + Nat.div2 (right - left))%nat in
        match nth_error pre mid with
        | Some m =>
            if (SortCompare comparefn pivot m <? 0)%Z
            then search_place fuel' pivot pre left mid
            else search_place fuel' pivot pre (S mid) right
        | None => left
        end
      else left
  end.

Definition binary_insert (pre : list A) (pivot : A) : list A :=
  let place := search_place (S (length pre)) pivot pre 0 (length pre) in
  (firstn place pre ++ pivot :: skipn place pre)%list.

Definition v8_sort (l : list A) : list A :=
  let (run, rest) := count_and_make_run l in
  fold_left binary_insert rest run.

End EngineSort.

(** An engine's [Array.prototype.sort], for every type of element. *)
Definition Sorter : Type :=
  forall A : Type, (A -> A -> option Z) -> list A -> list A.

Section GroupWith.
Context {host : Host}.

(** [groupByCategory] as the engine with the sort [srt] runs it. *)
Definition groupWith (srt : Sorter) (fileList : list FileObject)
  : JsMap (list FileObject) :=
  let m := fold_left add_file fileList [] in
  let m := List.map (fun e => (fst e, srt _ newest_first (snd e))) m in
  Map_from (srt _ by_name m).

End GroupWith.

(** [SortCompare] orders the elements of [dom] consistently: the results
    for [a, b] and for [b, a] have opposite signs, and standing before is
    transitive.  A comparator that returns NaN for elements whose order
    under the other elements differs is not consistent. *)
Definition consistent_on {A : Type} (comparefn : A -> A -> option Z)
           (dom : A -> Prop) : Prop :=
  (forall a b, dom a -> dom b ->
               ((SortCompare comparefn a b < 0)%Z
                <-> (0 < SortCompare comparefn b a)%Z)) /\
  (forall a b c, dom a -> dom b -> dom c ->
                 before comparefn a b -> before comparefn b c ->
                 before comparefn a c).

(** What the script may rely on in an engine's sort: it returns the
    elements it was given, whatever the comparator; and where the
    comparator is consistent the result is in order, with the elements
    that tie in the order they had (the sort is stable).  Where the
    comparator is not consistent the order is the engine's own. *)
Definition conforming (srt : Sorter) : Prop :=
  (forall (A : Type) (comparefn : A -> A -> option Z) (l : list A),
      Permutation (srt A comparefn l) l) /\
  (forall (A : Type) (comparefn : A -> A -> option Z) (dom : A -> Prop)
          (l : list A),
      consistent_on comparefn dom -> Forall dom l ->
      StronglySorted (before comparefn) (srt A comparefn l) /\
      (forall x, dom x ->
                 filter (tie comparefn x) (srt A comparefn l)
                 = filter (tie comparefn x) l)).

(* ------------------------------------------------------------------------- *)
(** ** One host

    An engine in the UTC time zone that reads the date-time format of
    ECMAScript ([YYYY-MM-DD], alone or followed by [THH:mm:ss]) and nothing
    else, folds the case of ASCII letters, and collates by code units. *)

Definition digit (c : ascii) : option Z :=
  let n := nat_of_ascii c in
  if ((48 <=? n) && (n <=? 57))%nat then Some (Z.of_nat (n - 48)) else None.

(** Exactly [n] decimal digits at the head of [s]. *)
Fixpoint digits (n : nat) (acc : Z) (s : string) : option (Z * string) :=
  match n with
  | O => Some (acc, s)
  | S k =>
      match s with
      | String c r =>
          match digit c with
          | Some d => digits k (10 * acc + d)%Z r
          | None => None
          end
      | EmptyString => None
      end
  end.

Definition expect (c : ascii) (s : string) : option string :=
  match s with
  | String d r => if Ascii.eqb c d then Some r else None
  | EmptyString => None
  end.

Definition is_leap (y : Z) : bool :=
  ((y mod 4 =? 0) && (negb (y mod 100 =? 0) || (y mod 400 =? 0)))%Z.

Definition days_in_month (y m : Z) : Z :=
  if (m =? 2)%Z then (if is_leap y then 29 else 28)%Z
  else if ((m =? 4) || (m =? 6) || (m =? 9) || (m =? 11))%Z then 30%Z
  else 31%Z.

(** Days from 1970-01-01 to the civil date [y]-[m]-[d]. *)
Definition days_from_civil (y m d : Z) : Z :=
  let y := (if m <=? 2 then y - 1 else y)%Z in
  let era := (y / 400)%Z in
  let yoe := (y - era * 400)%Z in
  let mp := (if 2 <? m then m - 3 else m + 9)%Z in
  let doy := ((153 * mp + 2) / 5 + d - 1)%Z in
  let doe := (yoe * 365 + yoe / 4 - yoe / 100 + doy)%Z in
  (era * 146097 + doe - 719468)%Z.

(** The civil date (year, month, day) of a number of days from 1970-01-01. *)
Definition civil_from_days (z : Z) : Z * Z * Z :=
  let z := (z + 719468)%Z in
  let era := (z / 146097)%Z in
  let doe := (z - era * 146097)%Z in
  let yoe := ((doe - doe / 1460 + doe / 36524 - doe / 146096) / 365)%Z in
  let doy := (doe - (365 * yoe + yoe / 4 - yoe / 100))%Z in
  let mp := ((5 * doy + 2) / 153)%Z in
  let d := (doy - (153 * mp + 2) / 5 + 1)%Z in
  let m := (if mp <? 10 then mp + 3 else mp - 9)%Z in
  ((if m <=? 2 then yoe + era * 400 + 1 else yoe + era * 400)%Z, m, d).

Definition ms_per_day : Z := 86400000.

Definition bind {A B : Type} (o : option A) (k : A -> option B) : option B :=
  match o with
  | Some a => k a
  | None => None
  end.

Definition time_of_day (s : string) : option Z :=
  match s with
  | EmptyString => Some 0%Z
  | _ =>
      bind (expect "T" s) (fun s =>
      bind (digits 2 0 s) (fun '(hh, s) =>
      bind (expect ":" s) (fun s =>
      bind (digits 2 0 s) (fun '(mm, s) =>
      bind (expect ":" s) (fun s =>
      bind (digits 2 0 s) (fun '(ss, s) =>
      match s with
      | EmptyString =>
          if ((hh <=? 23) && (mm <=? 59) && (ss <=? 59))%Z
          then Some (((hh * 60 + mm) * 60 + ss) * 1000)%Z
          else None
      | String _ _ => None
      end))))))
  end.

Definition iso_parse (s : string) : option Z :=
  bind (digits 4 0 s) (fun '(y, s) =>
  bind (expect "-" s) (fun s =>
  bind (digits 2 0 s) (fun '(m, s) =>
  bind (expect "-" s) (fun s =>
  bind (digits 2 0 s) (fun '(d, s) =>
  if ((1 <=? m) && (m <=? 12) && (1 <=? d) && (d <=? days_in_month y m))%Z
  then bind (time_of_day s) (fun ms =>
       Some (days_from_civil y m d * ms_per_day + ms)%Z)
  else None))))).

Definition month_name (m : Z) : string :=
  nth (Z.to_nat (m - 1))
      ["Jan"; "Feb"; "Mar"; "Apr"; "May"; "Jun";
       "Jul"; "Aug"; "Sep"; "Oct"; "Nov"; "Dec"] "".

Definition decimal (z : Z) : string :=
  DecimalString.NilZero.string_of_uint (N.to_uint (Z.to_N z)).

Definition en_US_date (t : Z) : string :=
  let '(y, m, d) := civil_from_days (t / ms_per_day) in
  month_name m ++ " " ++ decimal d ++ ", " ++ decimal y.

Definition ascii_lower (c : ascii) : ascii :=
  let n := nat_of_ascii c in
  if ((65 <=? n) && (n <=? 90))%nat then ascii_of_nat (n + 32) else c.

Fixpoint lower (s : string) : string :=
  match s with
  | EmptyString => EmptyString
  | String c r => String (ascii_lower c) (lower r)
  end.

Fixpoint code_unit_compare (a b : string) : Z :=
  match a, b with
  | EmptyString, EmptyString => 0
  | EmptyString, String _ _ => -1
  | String _ _, EmptyString => 1
  | String x a', String y b' =>
      if (N_of_ascii x <? N_of_ascii y)%N then -1
      else if (N_of_ascii y <? N_of_ascii x)%N then 1
      else code_unit_compare a' b'
  end%Z.

#[export] Instance utc_host : Host := {
  Date_parse := iso_parse;
  toLocaleDateString := en_US_date;
  toLowerCase := lower;
  localeCompare := code_unit_compare
}.

(** The catalog of [data.js]. *)
Definition files : list FileObject :=
  [ mkFile "Data Analysis"
           "Understanding core principles of data analysis"
           "Short explanation of vectorization, normalization and outlier detections, including example Python code blocks and scientific formulas. It's also good for beginners in Python."
           "pdfs/Vectorization-Normalization-OutliersDetection.pdf"
           "2026-02-26" ].

(* ------------------------------------------------------------------------- *)
(** ** Vocabulary of the properties *)

(** *** Markup *)

(** The three characters that open or close markup. *)
Definition markup_char (c : ascii) : bool :=
  Ascii.eqb c lt_sign || Ascii.eqb c gt_sign || Ascii.eqb c dquote.

(** How often the three markup characters occur in a text: [<], [>] and
    the double quote, in this order. *)
Definition markup (s : string) : nat * nat * nat :=
  (count_char lt_sign s, count_char gt_sign s, count_char dquote s).

Definition plus3 (a b : nat * nat * nat) : nat * nat * nat :=
  let '(a1, a2, a3) := a in
  let '(b1, b2, b3) := b in
  ((a1 + b1)%nat, (a2 + b2)%nat, (a3 + b3)%nat).

Definition sum3 (l : list (nat * nat * nat)) : nat * nat * nat :=
  fold_right plus3 (0%nat, 0%nat, 0%nat) l.

(** The markup characters of the card template and of the section
    template themselves. *)
Definition card_frame : nat * nat * nat := (10%nat, 10%nat, 20%nat).
Definition section_frame : nat * nat * nat := (6%nat, 6%nat, 10%nat).

(** *** Grouping and order *)

(** The records of category [k], in the order of the input. *)
Definition bucket (k : string) (l : list FileObject) : list FileObject :=
  filter (fun f => String.eqb (category f) k) l.

(** The categories of the records, each once, in the order they are first
    seen. *)
Definition see (ks : list string) (k : string) : list string :=
  if existsb (fun k' => String.eqb k' k) ks then ks else (ks ++ [k])%list.

Definition categories (l : list FileObject) : list string :=
  fold_left see (List.map category l) [].

(** A comparison of strings is consistent when it orders them totally:
    what is not behind is before, and before is transitive. *)
Definition consistent (cmp : string -> string -> Z) : Prop :=
  (forall a b, (0 < cmp a b)%Z -> (cmp b a <= 0)%Z) /\
  (forall a b c, (cmp a b <= 0)%Z -> (cmp b c <= 0)%Z -> (cmp a c <= 0)%Z).

(** [p] occurs in [s]. *)
Definition substring (p s : string) : Prop :=
  exists pre post, s = pre ++ p ++ post.

(** [l1] is [l2] with some elements left out. *)
Inductive subsequence {A : Type} : list A -> list A -> Prop :=
| sub_nil : subsequence [] []
| sub_keep x l1 l2 : subsequence l1 l2 -> subsequence (x :: l1) (x :: l2)
| sub_drop x l1 l2 : subsequence l1 l2 -> subsequence l1 (x :: l2).

Section Vocabulary.
Context {host : Host}.

(** Category names in ascending order of [localeCompare]. *)
Definition ascending (ks : list string) : Prop :=
  StronglySorted (fun a b => (localeCompare a b <= 0)%Z) ks.

(** The [updated] text of [f] parses to a date. *)
Definition parses (f : FileObject) : Prop := dateValue (updated f) <> None.

(** [a] is not older than [b]; a date that does not parse bounds nothing. *)
Definition not_older (a b : FileObject) : Prop :=
  match dateValue (updated a), dateValue (updated b) with
  | Some x, Some y => (y <= x)%Z
  | _, _ => True
  end.

(** Records in non-increasing order of their dates. *)
Definition newest_to_oldest (es : list FileObject) : Prop :=
  StronglySorted not_older es.

(** [f] has the sort key [t]; [None] is the key NaN. *)
Definition has_key (t : option Z) (f : FileObject) : bool :=
  match t, dateValue (updated f) with
  | Some x, Some y => (x =? y)%Z
  | None, None => true
  | _, _ => false
  end.

(** No record whose date does not parse stands before one whose date
    parses: the unparseable dates sort as the oldest. *)
Fixpoint invalid_last (es : list FileObject) : bool :=
  match es with
  | [] => true
  | f :: r =>
      match dateValue (updated f) with
      | Some _ => invalid_last r
      | None => forallb (fun g => has_key None g) r
      end
  end.

(** The query [q] occurs in one of the searchable fields of [f], letter
    case aside. *)
Definition matches (q : string) (f : FileObject) : Prop :=
  substring (toLowerCase q) (toLowerCase (title f)) \/
  substring (toLowerCase q) (toLowerCase (description f)) \/
  substring (toLowerCase q) (toLowerCase (category f)).

End Vocabulary.

(** *** Events of the search box *)

Definition event_value (e : Event) : string :=
  match e with Typed _ v | Assigned _ v => v end.

Definition is_typed (e : Event) : bool :=
  match e with Typed _ _ => true | Assigned _ _ => false end.

(** The value of the search box after the events [es], from [v0]. *)
Definition value_now (es : list Event) (v0 : string) : string :=
  fold_left (fun _ e => event_value e) es v0.

(** The value of the search box at time [t], before what happens at [t]:
    the value left by the events earlier than [t]. *)
Definition value_at (es : list Event) (v0 : string) (t : Z) : string :=
  fold_left (fun v e => if (event_time e <? t)%Z then event_value e else v)
            es v0.

(** Two renders, the newer first, a debounce delay apart or more. *)
Definition spaced (a b : Z * string) : Prop :=
  (fst b + debounce_delay <= fst a)%Z.

(** The invariant of the search controller after the events [es], with the
    clock at [c]: at most one timeout is pending, it is the one that
    [debounceTimer] names, and it is due a debounce delay or more after every
    render so far. *)
Definition Good (es : list Event) (v0 : string) (c : Z) (p : Page) : Prop :=
  listening p = true /\
  input p = Some (value_now es v0) /\
  clock p = c /\
  (forall e, In e es -> (event_time e <= c)%Z) /\
  (timers p = [] \/
   exists id due,
     timers p = [(id, due)] /\ debounceTimer p = Some id /\ (c < due)%Z /\
     (forall r, In r (renders p) -> (fst r + debounce_delay <= due)%Z)) /\
  (forall r, In r (renders p) ->
             (fst r <= c)%Z /\ snd r = value_at es v0 (fst r)) /\
  StronglySorted spaced (renders p) /\
  (length (renders p) + length (timers p)
   <= length (filter is_typed es))%nat.

(** *** More vocabulary *)

(** Reading escaped text back: each of the four entities stands for its
    character.  [skip] characters are passed over first. *)
Fixpoint unescape_from (skip : nat) (s : string) : string :=
  match s with
  | EmptyString => EmptyString
  | String c r =>
      match skip with
      | S k => unescape_from k r
      | O =>
          if Ascii.eqb c amp then
            if starts_with "amp;" r then String amp (unescape_from 4 r)
            else if starts_with "lt;" r then String lt_sign (unescape_from 3 r)
            else if starts_with "gt;" r then String gt_sign (unescape_from 3 r)
            else if starts_with "quot;" r
                 then String dquote (unescape_from 5 r)
                 else String c (unescape_from 0 r)
          else String c (unescape_from 0 r)
      end
  end.

Definition unescape (s : string) : string := unescape_from 0 s.

(** How many characters of [s] are one of [&], [<], [>], double quote. *)
Definition specials (s : string) : nat :=
  (count_char amp s + count_char lt_sign s
   + count_char gt_sign s + count_char dquote s)%nat.

Section MoreVocabulary.
Context {host : Host}.

(** What [renderAll] writes into the host container for the list. *)
Definition page_html (fileList : list FileObject) : string :=
  let grouped := groupByCategory fileList in
  if (length grouped =? 0)%nat then empty_state
  else fold_left (fun html e => html ++ renderCategory (fst e) (snd e))
                 grouped EmptyString.

(** What the host container holds after the renders of the log [rs]
    (newest first) of a page that started with the catalog [files]. *)
Definition shown (files : list FileObject) (rs : list (Z * string))
  : string :=
  match rs with
  | [] => page_html files
  | r :: _ => page_html (filterFiles files (trim (snd r)))
  end.

(** How many renders of the log asked for an animation frame: those that
    had a record to show. *)
Definition repaints (files : list FileObject) (rs : list (Z * string))
  : nat :=
  length (filter (fun r => match filterFiles files (trim (snd r)) with
                           | [] => false
                           | _ :: _ => true
                           end) rs).

(** The document and the log of renders agree: the host container holds
    what the newest render wrote, and every render that had a record to
    show has asked for an animation frame, [f0] frames being asked for
    before. *)
Definition linked (files : list FileObject) (f0 : nat) (p : Page) : Prop :=
  app (doc p) = Some (shown files (renders p)) /\
  frames (doc p) = (f0 + repaints files (renders p))%nat.

End MoreVocabulary.


(** Entries whose bucket is not empty and holds records of the key only. *)
Definition well_keyed (E : JsMap (list FileObject)) : Prop :=
  Forall (fun e => snd e <> [] /\
                   Forall (fun f => category f = fst e) (snd e)) E.

(** A page with no search box and no listener, whose document is [d0]. *)
Definition quiet (d0 : Document) (p : Page) : Prop :=
  listening p = false /\ input p = None /\ timers p = [] /\
  renders p = [] /\ doc p = d0.

(** The render that an [input] event leads to when no other follows in
    time: a debounce delay later, with the value of the event. *)
Definition render_of (e : Event) : Z * string :=
  ((event_time e + debounce_delay)%Z, event_value e).

(** *** Sample data *)

(** Three records in two categories. *)
Definition catalog : list FileObject :=
  [ mkFile "A" "X" "" "pdfs/x.pdf" "2024-01-01";
    mkFile "A" "Y" "" "pdfs/y.pdf" "2025-01-01";
    mkFile "B" "Z" "" "pdfs/z.pdf" "2024-06-01" ].

(** One category; the second record has no date. *)
Definition undated : list FileObject :=
  [ mkFile "A" "Old" "" "pdfs/old.pdf" "2024-01-01";
    mkFile "A" "Draft" "" "pdfs/draft.pdf" "soon";
    mkFile "A" "New" "" "pdfs/new.pdf" "2025-01-01" ].

(** A record with no date. *)
Definition draft : FileObject :=
  mkFile "A" "Draft" "" "pdfs/draft.pdf" "soon".

(** One category; the first record has no date. *)
Definition draft_old : list FileObject :=
  [ mkFile "A" "Draft" "" "pdfs/draft.pdf" "soon";
    mkFile "A" "Old" "" "pdfs/old.pdf" "2024-01-01" ].

(** Two records of one date, and a newer one behind them. *)
Definition ties : list FileObject :=
  [ mkFile "A" "First" "" "pdfs/1.pdf" "2024-01-01";
    mkFile "A" "Second" "" "pdfs/2.pdf" "2024-01-01";
    mkFile "A" "New" "" "pdfs/3.pdf" "2025-01-01" ].

(** One category, seven records: three of one date, one with no date, and
    two of one date with a newer one between them. *)
Definition seven : list FileObject :=
  [ mkFile "A" "U0" "" "pdfs/0.pdf" "2023-01-01";
    mkFile "A" "U1" "" "pdfs/1.pdf" "2023-01-01";
    mkFile "A" "U2" "" "pdfs/2.pdf" "2023-01-01";
    mkFile "A" "U3" "" "pdfs/3.pdf" "soon";
    mkFile "A" "U4" "" "pdfs/4.pdf" "2024-01-01";
    mkFile "A" "U5" "" "pdfs/5.pdf" "2025-01-01";
    mkFile "A" "U6" "" "pdfs/6.pdf" "2024-01-01" ].

(** Four records, one with no date, that two engines sort differently. *)
Definition four : list FileObject :=
  [ mkFile "A" "T0" "" "pdfs/0.pdf" "2023-01-01";
    mkFile "A" "T1" "" "pdfs/1.pdf" "2024-01-01";
    mkFile "A" "T2" "" "pdfs/2.pdf" "soon";
    mkFile "A" "T3" "" "pdfs/3.pdf" "2025-01-01" ].

(** Two categories; three of the four titles hold the word notes. *)
Definition shelf : list FileObject :=
  [ mkFile "A" "Alpha notes" "" "pdfs/alpha.pdf" "2023-01-01";
    mkFile "A" "Beta" "" "pdfs/beta.pdf" "2025-01-01";
    mkFile "A" "Gamma notes" "" "pdfs/gamma.pdf" "2024-01-01";
    mkFile "B" "Delta notes" "" "pdfs/delta.pdf" "2022-01-01" ].

(** The page of [data.js] once [init] has run, with an empty search box. *)
Definition started : Page :=
  match init files (loaded (mkDocument (Some EmptyString) 0)
                           (Some EmptyString)) with
  | Some p => p
  | None => loaded (mkDocument None 0) None
  end.

(** Three [input] events 50 ms apart. *)
Definition keystrokes : list Event :=
  [Typed 0 "p"; Typed 50 "py"; Typed 100 "pyt"].

(* ------------------------------------------------------------------------- *)
(** ** Escaping *)

Lemma count_char_app (c : ascii) (a b : string) :
  count_char c (a ++ b) = (count_char c a + count_char c b)%nat.
Proof.
  induction a as [|d a IH]; simpl; [reflexivity|].
  rewrite IH. lia.
Qed.

Lemma append_assoc (a b c : string) : (a ++ b) ++ c = a ++ b ++ c.
Proof.
  induction a as [|d a IH]; simpl; [reflexivity|].
  now rewrite IH.
Qed.

Lemma replace_char_app (c : ascii) (rep a b : string) :
  replace_char c rep (a ++ b) = replace_char c rep a ++ replace_char c rep b.
Proof.
  induction a as [|d a IH]; simpl; [reflexivity|].
  destruct (Ascii.eqb d c); rewrite IH; [|reflexivity].
  symmetry. apply append_assoc.
Qed.

(** The four passes do not disturb each other: an entity written by one
    pass holds no character a later pass looks for. *)
Lemma escHtml_cons (c : ascii) (r : string) :
  escHtml (String c r) = entity c ++ escHtml r.
Proof.
  unfold escHtml, entity. simpl.
  destruct (Ascii.eqb_spec c amp) as [->|Ha]; [reflexivity|].
  simpl.
  destruct (Ascii.eqb_spec c lt_sign) as [->|Hl]; [reflexivity|].
  simpl.
  destruct (Ascii.eqb_spec c gt_sign) as [->|Hg]; [reflexivity|].
  simpl.
  destruct (Ascii.eqb_spec c dquote) as [->|Hq]; reflexivity.
Qed.

Lemma escHtml_escape_each (s : string) : escHtml s = escape_each s.
Proof.
  induction s as [|c r IH]; [reflexivity|].
  rewrite escHtml_cons, IH. reflexivity.
Qed.

Lemma well_escaped_escape_each (s : string) :
  well_escaped (escape_each s) = true.
Proof.
  induction s as [|c r IH]; [reflexivity|].
  simpl. unfold entity.
  destruct (Ascii.eqb_spec c amp) as [->|Ha]; [simpl; exact IH|].
  destruct (Ascii.eqb_spec c lt_sign) as [->|Hl]; [simpl; exact IH|].
  destruct (Ascii.eqb_spec c gt_sign) as [->|Hg]; [simpl; exact IH|].
  destruct (Ascii.eqb_spec c dquote) as [->|Hq]; [simpl; exact IH|].
  simpl.
  apply Ascii.eqb_neq in Ha, Hl, Hg, Hq.
  rewrite Ha, Hl, Hg, Hq. simpl. exact IH.
Qed.

Lemma count_markup_escape_each (c : ascii) (s : string) :
  markup_char c = true -> count_char c (escape_each s) = 0%nat.
Proof.
  intros Hc. induction s as [|d r IH]; [reflexivity|].
  simpl. rewrite count_char_app, IH, Nat.add_0_r.
  unfold markup_char in Hc. unfold entity.
  destruct (Ascii.eqb_spec c lt_sign) as [->|Hl];
    [|destruct (Ascii.eqb_spec c gt_sign) as [->|Hg];
      [|destruct (Ascii.eqb_spec c dquote) as [->|Hq]; [|discriminate]]].
  all: destruct (Ascii.eqb_spec d amp) as [->|Da]; [reflexivity|].
  all: destruct (Ascii.eqb_spec d lt_sign) as [->|Dl]; [reflexivity|].
  all: destruct (Ascii.eqb_spec d gt_sign) as [->|Dg]; [reflexivity|].
  all: destruct (Ascii.eqb_spec d dquote) as [->|Dq]; [reflexivity|].
  all: simpl.
  - apply Ascii.eqb_neq in Dl. now rewrite Dl.
  - apply Ascii.eqb_neq in Dg. now rewrite Dg.
  - apply Ascii.eqb_neq in Dq. now rewrite Dq.
Qed.

Lemma count_markup_escHtml (c : ascii) (s : string) :
  markup_char c = true -> count_char c (escHtml s) = 0%nat.
Proof.
  intros Hc. rewrite escHtml_escape_each. now apply count_markup_escape_each.
Qed.

Lemma starts_with_app (p a b : string) :
  starts_with p a = true -> starts_with p (a ++ b) = true.
Proof.
  revert a. induction p as [|c p IH]; intros a H; [reflexivity|].
  destruct a as [|d a]; [discriminate|]. simpl in *.
  apply andb_true_iff in H as [H1 H2]. rewrite H1. now apply IH.
Qed.

Lemma opens_entity_app (a b : string) :
  opens_entity a = true -> opens_entity (a ++ b) = true.
Proof.
  unfold opens_entity. rewrite !orb_true_iff.
  intros [[[H|H]|H]|H]; rewrite (starts_with_app _ _ b H); auto.
Qed.

Lemma amp_guarded_app (a b : string) :
  amp_guarded a = true -> amp_guarded b = true -> amp_guarded (a ++ b) = true.
Proof.
  intros Ha Hb. induction a as [|c a IH]; [exact Hb|].
  simpl in *. apply andb_true_iff in Ha as [H1 H2].
  rewrite IH by exact H2. rewrite andb_true_r.
  apply orb_true_iff in H1 as [H1|H1]; [now rewrite H1|].
  rewrite (opens_entity_app _ _ H1). apply orb_true_r.
Qed.

Lemma well_escaped_guarded (s : string) :
  well_escaped s = true -> amp_guarded s = true.
Proof.
  induction s as [|c r IH]; [reflexivity|]. simpl.
  destruct (Ascii.eqb c lt_sign || Ascii.eqb c gt_sign || Ascii.eqb c dquote);
    [discriminate|].
  destruct (Ascii.eqb c amp); simpl.
  - intros H. apply andb_true_iff in H as [H1 H2]. now rewrite H1, IH.
  - exact IH.
Qed.

Lemma amp_guarded_escHtml (s : string) : amp_guarded (escHtml s) = true.
Proof.
  apply well_escaped_guarded. rewrite escHtml_escape_each.
  apply well_escaped_escape_each.
Qed.

Lemma amp_guarded_join_nl (l : list string) :
  Forall (fun x => amp_guarded x = true) l -> amp_guarded (join nl l) = true.
Proof.
  induction 1 as [|x l Hx Hl IH]; [reflexivity|].
  destruct l as [|y l]; [exact Hx|].
  change (join nl (x :: y :: l)) with (x ++ nl ++ join nl (y :: l)).
  apply amp_guarded_app; [exact Hx|].
  apply amp_guarded_app; [reflexivity|exact IH].
Qed.

Section Rendering.
Context {host : Host}.

Ltac guard_template :=
  repeat (apply amp_guarded_app;
          [first [reflexivity | apply amp_guarded_escHtml | assumption]|]);
  first [reflexivity | apply amp_guarded_escHtml | assumption].

Lemma amp_guarded_renderCard (f : FileObject) :
  amp_guarded (formatDate (updated f)) = true ->
  amp_guarded (renderCard f) = true.
Proof.
  intros H. unfold renderCard, q. rewrite !append_assoc. guard_template.
Qed.

Lemma amp_guarded_renderCategory (name : string) (entries : list FileObject) :
  Forall (fun e => amp_guarded (renderCard e) = true) entries ->
  amp_guarded (renderCategory name entries) = true.
Proof.
  intros H. unfold renderCategory.
  assert (Hc : amp_guarded (join nl (List.map renderCard entries)) = true).
  { apply amp_guarded_join_nl. now apply Forall_map. }
  revert Hc. generalize (join nl (List.map renderCard entries)) as cards.
  intros cards Hc. unfold q. rewrite !append_assoc. guard_template.
Qed.

Lemma formatDate_cases (str : string) :
  formatDate str = "Invalid Date" \/
  exists t, formatDate str = toLocaleDateString t.
Proof.
  unfold formatDate. destruct (Date_parse _) as [t|]; eauto.
Qed.

Ltac count_template :=
  rewrite ?count_char_app, ?count_markup_escHtml by reflexivity;
  simpl; lia.

Lemma markup_renderCard (f : FileObject) :
  markup (renderCard f) = plus3 card_frame (markup (formatDate (updated f))).
Proof.
  unfold markup, plus3, card_frame, renderCard, q.
  f_equal; [f_equal|]; count_template.
Qed.

Lemma markup_join_nl (l : list string) :
  markup (join nl l) = sum3 (List.map markup l).
Proof.
  induction l as [|x l IH]; [reflexivity|].
  destruct l as [|y l].
  - simpl. unfold markup, plus3. f_equal; [f_equal|]; lia.
  - change (join nl (x :: y :: l)) with (x ++ nl ++ join nl (y :: l)).
    change (sum3 (List.map markup (x :: y :: l)))
      with (plus3 (markup x) (sum3 (List.map markup (y :: l)))).
    rewrite <- IH. unfold markup, plus3.
    f_equal; [f_equal|]; rewrite !count_char_app; simpl; lia.
Qed.

Lemma markup_renderCategory (name : string) (entries : list FileObject) :
  markup (renderCategory name entries) =
  plus3 section_frame
        (sum3 (List.map (fun e => markup (renderCard e)) entries)).
Proof.
  unfold renderCategory.
  rewrite <- (map_map renderCard markup), <- markup_join_nl.
  generalize (join nl (List.map renderCard entries)) as cards. intros cards.
  unfold markup, plus3, section_frame, q.
  f_equal; [f_equal|]; count_template.
Qed.

End Rendering.

(* ------------------------------------------------------------------------- *)
(** ** The sort *)

Section SortFacts.
Context {A : Type}.
Variable comparefn : A -> A -> option Z.

Lemma insert_perm (x : A) (l : list A) :
  Permutation (insert comparefn x l) (x :: l).
Proof.
  induction l as [|y r IH]; simpl; [reflexivity|].
  destruct (0 <? SortCompare comparefn x y)%Z; [|reflexivity].
  rewrite IH. apply perm_swap.
Qed.

Lemma sort_by_perm (l : list A) : Permutation (sort_by comparefn l) l.
Proof.
  induction l as [|x r IH]; simpl; [reflexivity|].
  rewrite insert_perm. now constructor.
Qed.

(** Stability.  The sort moves [x] behind [y] only when the comparator says
    [x > y]; among elements that never compare so, the order is kept. *)
Lemma insert_filter (P : A -> bool) (x : A) (l : list A) :
  (forall b, In b l -> P x = true -> P b = true -> before comparefn x b) ->
  filter P (insert comparefn x l) = filter P (x :: l).
Proof.
  intros HP. induction l as [|y r IH]; [reflexivity|].
  simpl insert. destruct (0 <? SortCompare comparefn x y)%Z eqn:E;
    [|reflexivity].
  apply Z.ltb_lt in E.
  simpl in *. rewrite IH by (intros b Hb; apply HP; now right).
  destruct (P x) eqn:Px, (P y) eqn:Py; try reflexivity.
  specialize (HP y (or_introl eq_refl) eq_refl Py). unfold before in HP. lia.
Qed.

Lemma sort_by_filter (P : A -> bool) (l : list A) :
  (forall a b, In a l -> In b l -> P a = true -> P b = true ->
               before comparefn a b) ->
  filter P (sort_by comparefn l) = filter P l.
Proof.
  intros HP. induction l as [|x r IH]; [reflexivity|].
  simpl sort_by. rewrite insert_filter.
  - simpl. rewrite IH; [reflexivity|].
    intros a b Ha Hb. apply HP; now right.
  - intros b Hb. apply HP; [now left|right].
    apply (Permutation_in _ (sort_by_perm r)). exact Hb.
Qed.

(** Order.  On a domain where the comparator is consistent, the result is
    sorted. *)
Section Consistent.
Variable dom : A -> Prop.
Hypothesis total :
  forall a b, dom a -> dom b ->
              (0 < SortCompare comparefn a b)%Z -> before comparefn b a.
Hypothesis trans :
  forall a b c, dom a -> dom b -> dom c ->
                before comparefn a b -> before comparefn b c -> before comparefn a c.

Lemma insert_sorted (x : A) (l : list A) :
  dom x -> Forall dom l ->
  StronglySorted (before comparefn) l -> StronglySorted (before comparefn) (insert comparefn x l).
Proof.
  intros Hx Hl Hs. induction l as [|y r IH]; simpl.
  - repeat constructor.
  - inversion Hs as [|? ? Hsr Hy]; subst. inversion Hl as [|? ? Dy Dr]; subst.
    destruct (0 <? SortCompare comparefn x y)%Z eqn:E.
    + apply Z.ltb_lt in E. constructor; [now apply IH|].
      apply (Permutation_Forall (Permutation_sym (insert_perm x r))).
      constructor; [now apply total|exact Hy].
    + apply Z.ltb_ge in E. constructor; [exact Hs|].
      constructor; [exact E|].
      rewrite Forall_forall in *. intros z Hz.
      apply (trans x y z); auto.
Qed.

Lemma sort_by_sorted (l : list A) :
  Forall dom l -> StronglySorted (before comparefn) (sort_by comparefn l).
Proof.
  induction l as [|x r IH]; intros Hl; simpl; [constructor|].
  inversion Hl; subst.
  apply insert_sorted; auto.
  apply (Permutation_Forall (Permutation_sym (sort_by_perm r))). assumption.
Qed.

Lemma before_refl (x : A) : dom x -> before comparefn x x.
Proof.
  intros Hx. unfold before.
  destruct (Z.ltb_spec 0 (SortCompare comparefn x x)) as [H|H]; [|exact H].
  exact (total x x Hx Hx H).
Qed.

Lemma tie_refl (x : A) : dom x -> tie comparefn x x = true.
Proof.
  intros Hx. pose proof (before_refl x Hx) as H. unfold before in H.
  unfold tie. apply Z.leb_le in H. now rewrite H.
Qed.

Lemma tie_before (x y : A) :
  tie comparefn x y = true <->
  before comparefn x y /\ before comparefn y x.
Proof.
  unfold tie, before. rewrite andb_true_iff, !Z.leb_le. reflexivity.
Qed.

(** A sorted list is determined by the order of its elements within every
    class of ties. *)
Lemma sorted_stable_unique (l1 l2 : list A) :
  Forall dom l1 -> Forall dom l2 ->
  StronglySorted (before comparefn) l1 ->
  StronglySorted (before comparefn) l2 ->
  (forall x, dom x ->
             filter (tie comparefn x) l1 = filter (tie comparefn x) l2) ->
  l1 = l2.
Proof.
  revert l2. induction l1 as [|a l1 IH]; intros l2 D1 D2 S1 S2 H.
  - destruct l2 as [|b l2]; [reflexivity|].
    inversion D2 as [|? ? Db _]; subst.
    specialize (H b Db). simpl in H. rewrite (tie_refl b Db) in H.
    discriminate.
  - inversion D1 as [|? ? Da D1']; subst.
    inversion S1 as [|? ? S1' Ha]; subst.
    destruct l2 as [|b l2].
    { specialize (H a Da). simpl in H. rewrite (tie_refl a Da) in H.
      discriminate. }
    inversion D2 as [|? ? Db D2']; subst.
    inversion S2 as [|? ? S2' Hb]; subst.
    assert (Hba : before comparefn b a).
    { assert (Hin : In a (filter (tie comparefn a) (b :: l2))).
      { rewrite <- (H a Da). simpl. rewrite (tie_refl a Da). now left. }
      apply filter_In in Hin as [[<-|Hin] _]; [now apply before_refl|].
      rewrite Forall_forall in Hb. now apply Hb. }
    assert (Hab : before comparefn a b).
    { assert (Hin : In b (filter (tie comparefn b) (a :: l1))).
      { rewrite (H b Db). simpl. rewrite (tie_refl b Db). now left. }
      apply filter_In in Hin as [[<-|Hin] _]; [now apply before_refl|].
      rewrite Forall_forall in Ha. now apply Ha. }
    assert (Tab : tie comparefn a b = true) by (apply tie_before; auto).
    pose proof (H a Da) as E. simpl in E.
    rewrite (tie_refl a Da), Tab in E. inversion E as [[Eab Etl]].
    subst b. f_equal. apply IH; auto.
    intros x Dx. specialize (H x Dx). simpl in H.
    destruct (tie comparefn x a); [now inversion H|exact H].
Qed.

(** Whatever algorithm the engine runs, a stable sort of [l] returns what
    [sort_by] returns, where the comparator is consistent: a sorted list
    with the elements of [l], each class of ties in the order of [l]. *)
Lemma sort_by_canonical (l l' : list A) :
  Forall dom l -> Forall dom l' ->
  StronglySorted (before comparefn) l' ->
  (forall x, dom x ->
             filter (tie comparefn x) l' = filter (tie comparefn x) l) ->
  l' = sort_by comparefn l.
Proof.
  intros Dl Dl' Sl' Hstable.
  apply sorted_stable_unique; auto.
  - apply (Permutation_Forall (Permutation_sym (sort_by_perm l))). exact Dl.
  - now apply sort_by_sorted.
  - intros x Dx. rewrite (Hstable x Dx). symmetry.
    apply sort_by_filter. intros a b Ha Hb Ta Tb.
    rewrite Forall_forall in Dl.
    apply tie_before in Ta as [_ Hax]. apply tie_before in Tb as [Hxb _].
    apply (trans a x b); auto.
Qed.

End Consistent.
End SortFacts.

(* ------------------------------------------------------------------------- *)
(** ** The map *)

Section MapFacts.
Context {V : Type}.

Lemma map_has_keys (k : string) (m : JsMap V) :
  map_has k m = existsb (fun k' => String.eqb k' k) (map_keys m).
Proof.
  unfold map_has, map_keys. induction m as [|e m IH]; simpl; [reflexivity|].
  now rewrite IH.
Qed.

Lemma map_set_fresh (k : string) (v : V) (m : JsMap V) :
  map_has k m = false -> map_set k v m = (m ++ [(k, v)])%list.
Proof.
  unfold map_has. induction m as [|[k' v'] m IH]; simpl; [reflexivity|].
  intros H. apply orb_false_iff in H as [Hk Hm].
  rewrite Hk, IH by exact Hm. reflexivity.
Qed.

Lemma map_has_false (k : string) (m : JsMap V) :
  map_has k m = false <-> ~ In k (map_keys m).
Proof.
  unfold map_has, map_keys. induction m as [|[k' v] m IH]; simpl.
  - split; [tauto|reflexivity].
  - rewrite orb_false_iff, IH.
    destruct (String.eqb_spec k' k); intuition congruence.
Qed.

(** [map_update] is [m.get(k)] followed by a change of the array that the
    map still holds: the entry keeps its place. *)
Lemma map_update_get (k : string) (g : V -> V) (m : JsMap V) :
  map_update k g m =
  match map_get k m with
  | Some v => map_set k (g v) m
  | None => m
  end.
Proof.
  induction m as [|[k' v'] m IH]; simpl; [reflexivity|].
  destruct (String.eqb k' k) eqn:E; [reflexivity|].
  rewrite IH. destruct (map_get k m); reflexivity.
Qed.

Lemma map_update_last (k : string) (g : V -> V) (v : V) (m : JsMap V) :
  map_has k m = false ->
  map_update k g (m ++ [(k, v)])%list = (m ++ [(k, g v)])%list.
Proof.
  unfold map_has. induction m as [|[k' v'] m IH]; simpl.
  - now rewrite String.eqb_refl.
  - intros H. apply orb_false_iff in H as [Hk Hm].
    rewrite Hk, IH by exact Hm. reflexivity.
Qed.

(** On a map with one entry per key, [map_update] changes the one value. *)
Lemma map_update_tabulated (k : string) (g : V -> V) (B : string -> V)
      (K : list string) :
  NoDup K ->
  map_update k g (List.map (fun k' => (k', B k')) K) =
  List.map (fun k' => (k', if String.eqb k' k then g (B k') else B k')) K.
Proof.
  induction K as [|a K IH]; intros ND; simpl; [reflexivity|].
  inversion ND as [|? ? Ha NDK]; subst.
  destruct (String.eqb_spec a k) as [->|Hne].
  - f_equal. apply map_ext_in. intros b Hb.
    destruct (String.eqb_spec b k) as [->|]; [contradiction|reflexivity].
  - f_equal. now apply IH.
Qed.

Lemma fold_map_set (es acc : JsMap V) :
  NoDup (map_keys (acc ++ es)%list) ->
  fold_left (fun m e => map_set (fst e) (snd e) m) es acc = (acc ++ es)%list.
Proof.
  revert acc. induction es as [|[k v] es IH]; intros acc ND; simpl.
  - now rewrite app_nil_r.
  - rewrite map_set_fresh.
    + rewrite IH; rewrite <- app_assoc; [reflexivity|exact ND].
    + apply map_has_false. unfold map_keys in *.
      rewrite map_app in ND. simpl in ND.
      apply NoDup_remove_2 in ND. intros Hin. apply ND.
      apply in_or_app. now left.
Qed.

(** [new Map(entries)] keeps a list of entries whose keys are distinct. *)
Lemma Map_from_distinct (es : JsMap V) :
  NoDup (map_keys es) -> Map_from es = es.
Proof.
  intros ND. unfold Map_from. now rewrite fold_map_set.
Qed.

End MapFacts.

(* ------------------------------------------------------------------------- *)
(** ** Grouping *)

Lemma existsb_eqb (k : string) (ks : list string) :
  existsb (fun k' => String.eqb k' k) ks = true <-> In k ks.
Proof.
  rewrite existsb_exists. split.
  - intros [x [Hx E]]. apply String.eqb_eq in E. now subst.
  - intros H. exists k. split; [assumption|apply String.eqb_refl].
Qed.

Lemma categories_snoc (l : list FileObject) (f : FileObject) :
  categories (l ++ [f]) = see (categories l) (category f).
Proof.
  unfold categories. rewrite map_app, fold_left_app. reflexivity.
Qed.

Lemma categories_In (l : list FileObject) (k : string) :
  In k (categories l) <-> In k (List.map category l).
Proof.
  revert k. induction l as [|f l IH] using rev_ind; intros k; [reflexivity|].
  rewrite categories_snoc, map_app, in_app_iff. simpl. unfold see.
  destruct (existsb _ (categories l)) eqn:E.
  - rewrite IH. apply existsb_eqb in E. apply IH in E. intuition congruence.
  - rewrite in_app_iff, IH. simpl. tauto.
Qed.

Lemma categories_NoDup (l : list FileObject) : NoDup (categories l).
Proof.
  induction l as [|f l IH] using rev_ind; [constructor|].
  rewrite categories_snoc. unfold see.
  destruct (existsb _ (categories l)) eqn:E; [assumption|].
  apply NoDup_app; [assumption|repeat constructor; intros []|].
  intros a Ha [<-|[]].
  apply existsb_eqb in Ha. congruence.
Qed.

Lemma bucket_snoc (k : string) (l : list FileObject) (f : FileObject) :
  bucket k (l ++ [f]) =
  (bucket k l ++ (if String.eqb (category f) k then [f] else []))%list.
Proof.
  unfold bucket. rewrite filter_app. reflexivity.
Qed.

Lemma bucket_nil_iff (k : string) (l : list FileObject) :
  bucket k l = [] <-> ~ In k (List.map category l).
Proof.
  unfold bucket. induction l as [|f l IH]; simpl; [tauto|].
  destruct (String.eqb_spec (category f) k) as [E|E].
  - split; [discriminate|]. intros H. exfalso. apply H. now left.
  - rewrite IH. tauto.
Qed.

Section Grouping.
Context {host : Host}.

(** After the first loop the map holds, for every category in first-seen
    order, its records in input order. *)
Lemma collected (l : list FileObject) :
  fold_left add_file l [] =
  List.map (fun k => (k, bucket k l)) (categories l).
Proof.
  induction l as [|f l IH] using rev_ind; [reflexivity|].
  rewrite fold_left_app. simpl. rewrite IH, categories_snoc.
  unfold add_file, see.
  set (c := category f). set (K := categories l).
  assert (Hkeys : map_keys (List.map (fun k => (k, bucket k l)) K) = K).
  { unfold map_keys. rewrite map_map. simpl. apply map_id. }
  rewrite map_has_keys, Hkeys.
  destruct (existsb (fun k' => String.eqb k' c) K) eqn:E.
  - rewrite map_update_tabulated by apply categories_NoDup.
    apply map_ext. intros k. rewrite bucket_snoc. fold c.
    rewrite (String.eqb_sym c k).
    destruct (String.eqb k c); [reflexivity|now rewrite app_nil_r].
  - assert (Hhas : map_has c (List.map (fun k => (k, bucket k l)) K) = false).
    { now rewrite map_has_keys, Hkeys. }
    rewrite map_set_fresh, map_update_last by exact Hhas.
    rewrite map_app. simpl. f_equal.
    + apply map_ext_in. intros k Hk. rewrite bucket_snoc. fold c.
      destruct (String.eqb_spec c k) as [<-|]; [|now rewrite app_nil_r].
      apply existsb_eqb in Hk. fold K in Hk. congruence.
    + f_equal. f_equal. rewrite bucket_snoc. fold c.
      rewrite String.eqb_refl.
      assert (Hb : bucket c l = []); [|now rewrite Hb].
      apply bucket_nil_iff. intros Hin. apply categories_In in Hin.
      apply existsb_eqb in Hin. fold K in Hin. congruence.
Qed.

(** What [groupByCategory] returns, in one expression. *)
Lemma groupByCategory_eq (l : list FileObject) :
  groupByCategory l =
  sort_by by_name
    (List.map (fun k => (k, sort_by newest_first (bucket k l)))
              (categories l)).
Proof.
  unfold groupByCategory. rewrite collected, map_map. simpl.
  apply Map_from_distinct.
  unfold map_keys.
  apply (Permutation_NoDup
           (Permutation_sym (Permutation_map fst (sort_by_perm by_name _)))).
  rewrite map_map. simpl. rewrite map_id. apply categories_NoDup.
Qed.

End Grouping.

Lemma StronglySorted_impl {A : Type} (R R' : A -> A -> Prop) (l : list A) :
  (forall a b, R a b -> R' a b) -> StronglySorted R l -> StronglySorted R' l.
Proof.
  intros H. induction 1 as [|a l Hs IH Ha]; constructor; [assumption|].
  eapply Forall_impl; [|exact Ha]. auto.
Qed.

Lemma StronglySorted_map {A B : Type} (g : A -> B) (R : B -> B -> Prop)
      (l : list A) :
  StronglySorted (fun a b => R (g a) (g b)) l ->
  StronglySorted R (List.map g l).
Proof.
  induction 1 as [|a l Hs IH Ha]; simpl; constructor; [assumption|].
  rewrite Forall_forall in *. intros y Hy.
  apply in_map_iff in Hy as [x [<- Hx]]. auto.
Qed.

Lemma flat_map_perm_pointwise {A B : Type} (g h : A -> list B) (l : list A) :
  (forall a, Permutation (g a) (h a)) ->
  Permutation (flat_map g l) (flat_map h l).
Proof.
  intros H. induction l as [|a l IH]; simpl; [reflexivity|].
  now apply Permutation_app.
Qed.

Lemma bucket_cons (k : string) (f : FileObject) (l : list FileObject) :
  bucket k (f :: l) =
  if String.eqb (category f) k then f :: bucket k l else bucket k l.
Proof. reflexivity. Qed.

(** Buckets of distinct categories share no record and miss none. *)
Lemma buckets_cons (f : FileObject) (l : list FileObject) (K : list string) :
  NoDup K ->
  (In (category f) K ->
   Permutation (flat_map (fun k => bucket k (f :: l)) K)
               (f :: flat_map (fun k => bucket k l) K)) /\
  (~ In (category f) K ->
   flat_map (fun k => bucket k (f :: l)) K = flat_map (fun k => bucket k l) K).
Proof.
  induction K as [|a K IH]; intros ND.
  - split; [intros []|reflexivity].
  - inversion ND as [|? ? Ha NDK]; subst.
    destruct (IH NDK) as [IHin IHout]. cbn [flat_map].
    rewrite (bucket_cons a).
    destruct (String.eqb_spec (category f) a) as [E|E].
    + split; [intros _|intros H; exfalso; apply H; now left].
      rewrite IHout by congruence. reflexivity.
    + split.
      * intros [Hin|Hin]; [congruence|].
        rewrite (IHin Hin). symmetry. apply Permutation_middle.
      * intros H. rewrite IHout; [reflexivity|].
        intros Hin. apply H. now right.
Qed.

Lemma buckets_partition (l : list FileObject) (K : list string) :
  NoDup K -> (forall f, In f l -> In (category f) K) ->
  Permutation (flat_map (fun k => bucket k l) K) l.
Proof.
  intros ND. induction l as [|f l IH]; intros Hall.
  - clear. induction K as [|a K IH]; simpl; [reflexivity|exact IH].
  - destruct (buckets_cons f l K ND) as [Hin _].
    rewrite Hin by (apply Hall; now left).
    constructor. apply IH. intros g Hg. apply Hall. now right.
Qed.

(* ------------------------------------------------------------------------- *)
(** ** Properties of [groupByCategory] *)

Section GroupingProperties.
Context {host : Host}.

Lemma in_group (l : list FileObject) (k : string) (es : list FileObject) :
  In (k, es) (groupByCategory l) ->
  In k (categories l) /\ es = sort_by newest_first (bucket k l).
Proof.
  rewrite groupByCategory_eq. intros H.
  apply (Permutation_in _ (sort_by_perm by_name _)) in H.
  apply in_map_iff in H as [k' [E Hk]]. inversion E; subst. auto.
Qed.

Lemma group_keys (l : list FileObject) :
  Permutation (map_keys (groupByCategory l)) (categories l).
Proof.
  rewrite groupByCategory_eq. unfold map_keys.
  rewrite (Permutation_map fst (sort_by_perm by_name _)).
  rewrite map_map. simpl. now rewrite map_id.
Qed.

Lemma before_newest_first (a b : FileObject) :
  before newest_first a b <-> not_older a b.
Proof.
  unfold before, SortCompare, newest_first, not_older, num_sub.
  destruct (dateValue (updated a)), (dateValue (updated b)); lia.
Qed.

(** C7.  [groupByCategory] partitions its input by category: the keys are
    distinct, the bucket of a key holds exactly the input records of that
    category (so a record stands in the bucket of its own category and in
    no other), every input record has the bucket of its category, and all
    buckets together are a permutation of the input. *)
Theorem group_partition (l : list FileObject) :
  NoDup (map_keys (groupByCategory l)) /\
  (forall k es, In (k, es) (groupByCategory l) ->
                Permutation es (bucket k l)) /\
  (forall k es f, In (k, es) (groupByCategory l) -> In f es ->
                  category f = k /\ In f l) /\
  (forall f, In f l -> In (category f) (map_keys (groupByCategory l))) /\
  Permutation (concat (List.map snd (groupByCategory l))) l.
Proof.
  split; [|split; [|split; [|split]]].
  - apply (Permutation_NoDup (Permutation_sym (group_keys l))).
    apply categories_NoDup.
  - intros k es H. apply in_group in H as [_ ->]. apply sort_by_perm.
  - intros k es f H Hf. apply in_group in H as [_ ->].
    apply (Permutation_in _ (sort_by_perm newest_first _)) in Hf.
    apply filter_In in Hf as [Hl Hc]. apply String.eqb_eq in Hc. auto.
  - intros f Hf. apply (Permutation_in _ (Permutation_sym (group_keys l))).
    apply categories_In. now apply in_map.
  - rewrite <- flat_map_concat_map, groupByCategory_eq.
    rewrite (Permutation_flat_map snd (sort_by_perm by_name _)).
    rewrite flat_map_concat_map, map_map. simpl.
    rewrite <- flat_map_concat_map.
    rewrite (flat_map_perm_pointwise _ (fun k => bucket k l))
      by (intros k; apply sort_by_perm).
    apply buckets_partition; [apply categories_NoDup|].
    intros f Hf. apply categories_In. now apply in_map.
Qed.

(** C2, amended.  When [localeCompare] is consistent, the categories stand
    in ascending order; and in every bucket whose dates all parse the
    records stand from newest to oldest. *)
Theorem group_order (l : list FileObject) :
  consistent localeCompare ->
  ascending (map_keys (groupByCategory l)) /\
  (forall k es, In (k, es) (groupByCategory l) ->
                Forall parses es -> newest_to_oldest es).
Proof.
  intros [Htot Htrans]. split.
  - rewrite groupByCategory_eq. unfold ascending, map_keys.
    apply StronglySorted_map.
    eapply StronglySorted_impl;
      [|apply (sort_by_sorted by_name (fun _ => True))].
    + intros a b H. exact H.
    + intros a b _ _. unfold before, SortCompare, by_name. apply Htot.
    + intros a b c _ _ _. unfold before, SortCompare, by_name. apply Htrans.
    + apply Forall_forall. intros; exact I.
  - intros k es H Hp. apply in_group in H as [_ ->].
    unfold newest_to_oldest.
    eapply StronglySorted_impl; [intros a b; apply before_newest_first|].
    apply (sort_by_sorted newest_first parses).
    + intros a b Ha Hb. unfold parses, before, SortCompare, newest_first,
        num_sub in *.
      destruct (dateValue (updated a)), (dateValue (updated b)); lia.
    + intros a b c Ha Hb Hc. unfold parses, before, SortCompare, newest_first,
        num_sub in *.
      destruct (dateValue (updated a)), (dateValue (updated b)),
        (dateValue (updated c)); try lia; congruence.
    + apply (Permutation_Forall (sort_by_perm newest_first _)). exact Hp.
Qed.

End GroupingProperties.

(* ------------------------------------------------------------------------- *)
(** ** Properties of the renderer and of the filter *)

Lemma subsequence_refl {A : Type} (l : list A) : subsequence l l.
Proof. induction l; constructor; assumption. Qed.

Lemma subsequence_filter {A : Type} (P : A -> bool) (l : list A) :
  subsequence (filter P l) l.
Proof.
  induction l as [|x l IH]; simpl; [constructor|].
  destruct (P x); constructor; assumption.
Qed.

Lemma starts_with_prefix (p s : string) :
  starts_with p s = true -> exists post, s = p ++ post.
Proof.
  revert s. induction p as [|c p IH]; intros s H.
  - exists s. reflexivity.
  - destruct s as [|d s]; [discriminate|]. simpl in H.
    apply andb_true_iff in H as [H1 H2].
    apply Ascii.eqb_eq in H1. subst d.
    destruct (IH s H2) as [post ->]. exists post. reflexivity.
Qed.

Lemma includes_substring (s p : string) :
  includes s p = true -> substring p s.
Proof.
  induction s as [|c s IH]; simpl; rewrite orb_true_iff.
  - intros [H|H]; [|discriminate].
    apply starts_with_prefix in H as [post ->]. now exists EmptyString, post.
  - intros [H|H].
    + apply starts_with_prefix in H as [post E].
      exists EmptyString, post. exact E.
    + destruct (IH H) as [pre [post ->]].
      exists (String c pre), post. reflexivity.
Qed.

Lemma substring_includes (s p : string) :
  substring p s -> includes s p = true.
Proof.
  intros [pre [post ->]]. induction pre as [|c pre IH].
  - simpl append.
    assert (H : starts_with p (p ++ post) = true).
    { clear. induction p as [|c p IH]; [reflexivity|].
      simpl. now rewrite Ascii.eqb_refl. }
    destruct (p ++ post); simpl; now rewrite H.
  - simpl. rewrite IH. apply orb_true_r.
Qed.

Section RenderFilterProperties.
Context {host : Host}.

(** C1.  Every field reaches the markup through [escHtml], which replaces
    each [&], [<], [>] and double quote by its entity and nothing else.  So
    the card and the section hold exactly the [<], [>] and double quotes of
    their templates, whatever the fields are (a title with [<script>]
    adds no [<]); the date text, made from the parsed time value and not
    from the field, is the one part that is not escaped; and every [&] of
    the output opens an entity when the date text has none that does not. *)
Theorem fields_escaped (f : FileObject) (name : string)
        (entries : list FileObject) :
  (forall s, escHtml s = escape_each s /\ well_escaped (escHtml s) = true) /\
  markup (renderCard f)
  = plus3 card_frame (markup (formatDate (updated f))) /\
  (amp_guarded (formatDate (updated f)) = true ->
   amp_guarded (renderCard f) = true) /\
  markup (renderCategory name entries)
  = plus3 section_frame
          (sum3 (List.map (fun e => markup (renderCard e)) entries)) /\
  (Forall (fun e => amp_guarded (renderCard e) = true) entries ->
   amp_guarded (renderCategory name entries) = true) /\
  (formatDate (updated f) = "Invalid Date" \/
   exists t, formatDate (updated f) = toLocaleDateString t).
Proof.
  repeat split.
  - apply escHtml_escape_each.
  - rewrite escHtml_escape_each. apply well_escaped_escape_each.
  - apply markup_renderCard.
  - apply amp_guarded_renderCard.
  - apply markup_renderCategory.
  - apply amp_guarded_renderCategory.
  - apply formatDate_cases.
Qed.

Lemma group_empty_iff (fileList : list FileObject) :
  groupByCategory fileList = [] <-> fileList = [].
Proof.
  split; [|intros ->; reflexivity].
  intros E. destruct fileList as [|f l]; [reflexivity|].
  assert (H : forall g, In g (f :: l) ->
                         In (category g) (map_keys (groupByCategory (f :: l)))).
  { intros g Hg. apply (Permutation_in _ (Permutation_sym (group_keys _))).
    apply categories_In. now apply in_map. }
  specialize (H f (or_introl eq_refl)). rewrite E in H. destruct H.
Qed.


(** C3.  Every record that [filterFiles] returns holds the query, letter
    case aside, in its title, description or category; the result keeps the
    order of the input and is no longer than it. *)
Theorem filterFiles_sound (files : list FileObject) (query : string) :
  toLowerCase "" = "" ->
  (forall f, In f (filterFiles files query) -> matches query f) /\
  subsequence (filterFiles files query) files /\
  (length (filterFiles files query) <= length files)%nat.
Proof.
  intros Hlow. unfold filterFiles.
  destruct (String.eqb_spec query EmptyString) as [->|Hq].
  - split; [|split; [apply subsequence_refl|reflexivity]].
    intros f _. left. rewrite Hlow.
    now exists EmptyString, (toLowerCase (title f)).
  - split; [|split; [apply subsequence_filter|apply filter_length_le]].
    intros f Hf. apply filter_In in Hf as [_ Hm].
    unfold matches.
    rewrite !orb_true_iff in Hm.
    destruct Hm as [[H|H]|H]; apply includes_substring in H; auto.
Qed.

(** A value of white space only trims to the empty string. *)
Lemma trim_blank (v : string) : blank v = true -> trim v = EmptyString.
Proof.
  unfold blank, trim. destruct (trimStart v); [reflexivity|discriminate].
Qed.

(** C4, amended.  [filterFiles] returns the list unchanged for the empty
    query; a query of white space only reaches it trimmed, as the search
    controller passes it, and is then the empty query. *)
Theorem filterFiles_identity (files : list FileObject) (v : string) :
  blank v = true ->
  filterFiles files EmptyString = files /\
  filterFiles files (trim v) = files.
Proof.
  intros Hv. rewrite (trim_blank v Hv). split; reflexivity.
Qed.

End RenderFilterProperties.

(* ------------------------------------------------------------------------- *)
(** ** The debounced search *)

Section Debounce.
Context {host : Host}.
Variable files : list FileObject.

Lemma advance_spec (p : Page) (t : Z) (v : string) :
  input p = Some v ->
  (timers p = [] \/ exists id due, timers p = [(id, due)]) ->
  (exists id due,
      timers p = [(id, due)] /\ (due <= t)%Z /\
      advance files t p =
      mkPage (match renderAll (filterFiles files (trim v)) (doc p) with
              | Some d' => d'
              | None => doc p
              end)
             (Some v) (listening p) (Z.max due t) [] (next_timer p)
             (debounceTimer p) ((due, v) :: renders p))
  \/ ((forall e, In e (timers p) -> (t < snd e)%Z) /\
      advance files t p =
      mkPage (doc p) (input p) (listening p) (Z.max (clock p) t) (timers p)
             (next_timer p) (debounceTimer p) (renders p)).
Proof.
  destruct p as [d i li c ts n db rs]. simpl.
  intros Hin [Ht|[id [due Ht]]]; subst.
  - right. split; [intros e []|reflexivity].
  - destruct (Z.leb_spec due t) as [Hd|Hd].
    + left. exists id, due. split; [reflexivity|split; [exact Hd|]].
      unfold advance. simpl.
      apply Z.leb_le in Hd. rewrite Hd. simpl.
      unfold fire, on_timeout. simpl.
      rewrite Nat.eqb_refl. reflexivity.
    + right. split.
      * intros e [<-|[]]. exact Hd.
      * unfold advance. simpl.
        apply Z.leb_gt in Hd. rewrite Hd. reflexivity.
Qed.

Lemma value_at_all (es : list Event) (v0 : string) (t : Z) :
  (forall e, In e es -> (event_time e < t)%Z) ->
  value_at es v0 t = value_now es v0.
Proof.
  revert v0. induction es as [|e es IH]; intros v0 H; [reflexivity|].
  unfold value_at, value_now. simpl.
  assert (E : (event_time e <? t)%Z = true).
  { apply Z.ltb_lt. apply H. now left. }
  rewrite E. apply IH. intros e' He'. apply H. now right.
Qed.

Lemma value_at_snoc (es : list Event) (e : Event) (v0 : string) (t : Z) :
  (t <= event_time e)%Z -> value_at (es ++ [e]) v0 t = value_at es v0 t.
Proof.
  intros H. unfold value_at. rewrite fold_left_app. simpl.
  apply Z.ltb_ge in H. now rewrite H.
Qed.

Lemma value_now_snoc (es : list Event) (e : Event) (v0 : string) :
  value_now (es ++ [e]) v0 = event_value e.
Proof. unfold value_now. now rewrite fold_left_app. Qed.

Lemma good_init (d : Document) (v0 : string) (p0 : Page) :
  init files (loaded d (Some v0)) = Some p0 -> Good [] v0 0 p0.
Proof.
  unfold init, loaded. simpl.
  destruct (renderAll files d) as [d'|]; [|discriminate].
  intros E. inversion E; subst. unfold Good, initSearch. simpl.
  repeat split; try tauto; try constructor; auto.
Qed.

Lemma good_advance (es : list Event) (v0 : string) (c t : Z) (p : Page) :
  Good es v0 c p -> Good es v0 (Z.max c t) (advance files t p).
Proof.
  intros (Hl & Hi & Hc & He & Ht & Hr & Hs & Hn).
  assert (Hshape : timers p = [] \/ exists id due, timers p = [(id, due)]).
  { destruct Ht as [Ht|(id & due & Ht & _)]; eauto. }
  destruct (advance_spec p t _ Hi Hshape)
    as [(id & due & Hts & Hdue & ->)|[Hlate ->]]; unfold Good; simpl.
  - destruct Ht as [Ht|(id' & due' & Ht & Hdb & Hlt & Hsp)]; [congruence|].
    rewrite Hts in Ht. inversion Ht; subst id' due'.
    rewrite Hts in Hn. simpl in Hn.
    repeat split; auto; try lia.
    + intros e Hin. specialize (He e Hin). lia.
    + destruct H as [<-|H]; simpl; [lia|]. apply Hr in H. lia.
    + destruct H as [<-|H]; simpl; [|now apply Hr].
      symmetry. apply value_at_all. intros e Hin. specialize (He e Hin). lia.
    + constructor; [exact Hs|].
      apply Forall_forall. intros r Hin. unfold spaced. simpl. now apply Hsp.
  - repeat split; auto; try lia.
    + intros e Hin. specialize (He e Hin). lia.
    + destruct Ht as [Ht|(id & due & Ht & Hdb & Hlt & Hsp)]; [now left|].
      right. exists id, due. repeat split; auto.
      specialize (Hlate (id, due)). rewrite Ht in Hlate.
      specialize (Hlate (or_introl eq_refl)). simpl in Hlate. lia.
    + apply Hr in H. lia.
    + now apply Hr.
Qed.

Lemma good_step (es : list Event) (v0 : string) (c : Z) (p : Page)
      (e : Event) :
  Good es v0 c p -> (c <= event_time e)%Z ->
  Good (es ++ [e]) v0 (event_time e) (step files p e).
Proof.
  intros HG Hce. apply (good_advance _ _ _ (event_time e)) in HG.
  rewrite Z.max_r in HG by exact Hce.
  unfold step. remember (advance files (event_time e) p) as p1 eqn:Ep1.
  clear Ep1.
  destruct HG as (Hl & Hi & Hc & He & Ht & Hr & Hs & Hn).
  assert (Hev : forall e', In e' (es ++ [e]) ->
                           (event_time e' <= event_time e)%Z).
  { intros e' Hin. apply in_app_iff in Hin as [Hin|[<-|[]]]; [auto|lia]. }
  assert (Hold : forall r, In r (renders p1) ->
                 (fst r <= event_time e)%Z /\
                 snd r = value_at (es ++ [e]) v0 (fst r)).
  { intros r Hin. destruct (Hr r Hin) as [H1 H2]. split; [exact H1|].
    now rewrite value_at_snoc. }
  destruct e as [t v|t v]; unfold Good, set_value;
    rewrite filter_app, length_app; simpl in *.
  - rewrite Hi, Hl. unfold on_input. simpl.
    assert (Hclear : clearTimeout (debounceTimer p1) (timers p1) = []).
    { destruct Ht as [->|(id & due & -> & -> & _)].
      - destruct (debounceTimer p1); reflexivity.
      - simpl. now rewrite Nat.eqb_refl. }
    rewrite Hclear. simpl.
    repeat split; auto; try (now apply Hold).
    + now rewrite value_now_snoc.
    + right. exists (next_timer p1), (clock p1 + debounce_delay)%Z.
      repeat split; auto.
      * unfold debounce_delay. lia.
      * intros r Hin. apply Hr in Hin. lia.
    + lia.
  - rewrite Hi. repeat split; auto; try (now apply Hold).
    + now rewrite value_now_snoc.
    + lia.
Qed.

Lemma StronglySorted_snoc {A : Type} (R : A -> A -> Prop) (l : list A)
      (x : A) :
  StronglySorted R (l ++ [x]) ->
  StronglySorted R l /\ Forall (fun y => R y x) l.
Proof.
  induction l as [|a l IH]; simpl; intros H.
  - split; constructor.
  - inversion H as [|? ? Hs Ha]; subst.
    destruct (IH Hs) as [H1 H2].
    split; constructor; auto.
    + rewrite Forall_forall in *. intros y Hy. apply Ha.
      apply in_or_app. now left.
    + rewrite Forall_forall in Ha. apply Ha. apply in_or_app. right. now left.
Qed.

(** From a page that has started, any events in the order of their times
    keep the invariant; the clock is at the time of the last event. *)
Lemma good_run (d : Document) (v0 : string) (p0 : Page) (es : list Event) :
  init files (loaded d (Some v0)) = Some p0 ->
  StronglySorted Z.le (0%Z :: List.map event_time es) ->
  exists c, Good es v0 c (run files es p0) /\
            (c = 0%Z \/ In c (List.map event_time es)).
Proof.
  intros Hinit. induction es as [|e es IH] using rev_ind; intros Hs.
  - exists 0%Z. split; [now apply (good_init d)|now left].
  - rewrite map_app in Hs. simpl in Hs.
    change (0%Z :: (List.map event_time es ++ [event_time e])%list)
      with ((0%Z :: List.map event_time es) ++ [event_time e])%list in Hs.
    apply StronglySorted_snoc in Hs as [Hs Hle].
    destruct (IH Hs) as (c & HG & Hc).
    exists (event_time e). split.
    + unfold run. rewrite fold_left_app. simpl.
      apply (good_step es v0 c); [exact HG|].
      rewrite Forall_forall in Hle. apply Hle.
      destruct Hc as [->|Hc]; [now left|now right].
    + right. rewrite map_app. apply in_or_app. right. now left.
Qed.

End Debounce.

(* ------------------------------------------------------------------------- *)
(** ** The host [utc_host] at work *)

Lemma code_unit_compare_consistent : consistent code_unit_compare.
Proof.
  split.
  - induction a as [|x a IH]; destruct b as [|y b]; simpl; try lia.
    destruct (N.ltb_spec (N_of_ascii x) (N_of_ascii y)); [lia|].
    destruct (N.ltb_spec (N_of_ascii y) (N_of_ascii x)); [lia|].
    apply IH.
  - induction a as [|x a IH]; destruct b as [|y b]; destruct c as [|z c];
      simpl; try lia.
    destruct (N.ltb_spec (N_of_ascii x) (N_of_ascii y));
      destruct (N.ltb_spec (N_of_ascii y) (N_of_ascii x));
      destruct (N.ltb_spec (N_of_ascii y) (N_of_ascii z));
      destruct (N.ltb_spec (N_of_ascii z) (N_of_ascii y));
      destruct (N.ltb_spec (N_of_ascii x) (N_of_ascii z));
      destruct (N.ltb_spec (N_of_ascii z) (N_of_ascii x));
      try lia.
    apply IH.
Qed.

Example group_catalog :
  groupByCategory catalog =
  [ ("A", [ mkFile "A" "Y" "" "pdfs/y.pdf" "2025-01-01";
            mkFile "A" "X" "" "pdfs/x.pdf" "2024-01-01" ]);
    ("B", [ mkFile "B" "Z" "" "pdfs/z.pdf" "2024-06-01" ]) ].
Proof. reflexivity. Qed.

Example format_sample : formatDate "2026-02-26" = "Feb 26, 2026".
Proof. reflexivity. Qed.

Example python_matches_description : filterFiles files "python" = files.
Proof. reflexivity. Qed.

Example script_title_is_inert :
  includes (renderCard (mkFile "A" "<script>alert(1)</script>" "" "a.pdf"
                               "2024-01-01"))
           "<script" = false.
Proof. reflexivity. Qed.

(** C2 as stated fails: around a record whose date does not parse, the
    record of 2024 stays before the record of 2025. *)
Lemma group_order_counterexample :
  exists es, In ("A", es) (groupByCategory undated) /\ ~ newest_to_oldest es.
Proof.
  exists undated. split; [now left|].
  intros H. inversion H as [|? ? _ Hall]; subst.
  inversion Hall as [|? ? _ Hrest]; subst.
  inversion Hrest as [|? ? Hlast _]; subst.
  vm_compute in Hlast. now apply Hlast.
Qed.

(** C4 as stated fails: [filterFiles] does not trim, and no record of the
    catalog holds three spaces in a row. *)
Lemma filterFiles_blank_counterexample : filterFiles files "   " <> files.
Proof. vm_compute. discriminate. Qed.

(** C5 as stated fails: the record with no date stands first in its bucket,
    before a dated one, and [formatDate] does not show the raw text. *)
Lemma malformed_date_counterexample :
  (exists es,
      In ("A", es) (groupByCategory draft_old) /\
      In ("A", es) (groupWith (@v8_sort) draft_old) /\
      invalid_last es = false) /\
  formatDate "soon" <> "soon".
Proof.
  split.
  - eexists. split; [now left|]. split; [now left|reflexivity].
  - vm_compute. discriminate.
Qed.

(** That order does not hang on the sorting algorithm: on [draft_old] the
    comparator returns NaN for every pair, all records tie, and a stable
    sort of any kind leaves the list as it is. *)
Lemma draft_old_any_stable_sort (l' : list FileObject) :
  Permutation l' draft_old ->
  StronglySorted (before newest_first) l' ->
  (forall x, In x draft_old ->
             filter (tie newest_first x) l'
             = filter (tie newest_first x) draft_old) ->
  l' = draft_old.
Proof.
  intros Hp Hs Hst.
  change (l' = sort_by newest_first draft_old).
  apply (sort_by_canonical newest_first (fun r => In r draft_old)); auto.
  - intros a b [<-|[<-|[]]] [<-|[<-|[]]] _; vm_compute; discriminate.
  - intros a b c [<-|[<-|[]]] [<-|[<-|[]]] [<-|[<-|[]]] _ _;
      vm_compute; discriminate.
  - apply Forall_forall. auto.
  - apply Forall_forall. intros x Hx. apply (Permutation_in _ Hp Hx).
Qed.

Lemma group_order_witness :
  ascending (map_keys (groupByCategory catalog)) /\
  (forall k es, In (k, es) (groupByCategory catalog) ->
                Forall parses es -> newest_to_oldest es).
Proof.
  apply (group_order catalog). exact code_unit_compare_consistent.
Defined.

Lemma filterFiles_sound_witness :
  (forall f, In f (filterFiles files "python") -> matches "python" f) /\
  subsequence (filterFiles files "python") files /\
  (length (filterFiles files "python") <= length files)%nat.
Proof.
  apply (filterFiles_sound files "python"). reflexivity.
Defined.

Lemma filterFiles_identity_witness :
  filterFiles files EmptyString = files /\
  filterFiles files (trim "   ") = files.
Proof.
  apply (filterFiles_identity files "   "). reflexivity.
Defined.


Example keystrokes_render_once :
  renders (advance files 1000 (run files keystrokes started))
  = [(250%Z, "pyt")] /\
  renders (advance files 249 (run files keystrokes started)) = [].
Proof. split; reflexivity. Qed.

(* ------------------------------------------------------------------------- *)
(** ** More on [escHtml] *)

Lemma length_append (a b : string) :
  String.length (a ++ b) = (String.length a + String.length b)%nat.
Proof.
  induction a as [|c a IH]; simpl; [reflexivity|]. now rewrite IH.
Qed.

Lemma unescape_escape_each (s : string) : unescape (escape_each s) = s.
Proof.
  unfold unescape. induction s as [|c r IH]; [reflexivity|].
  simpl. unfold entity.
  destruct (Ascii.eqb_spec c amp) as [->|Ha]; [simpl; now rewrite IH|].
  destruct (Ascii.eqb_spec c lt_sign) as [->|Hl]; [simpl; now rewrite IH|].
  destruct (Ascii.eqb_spec c gt_sign) as [->|Hg]; [simpl; now rewrite IH|].
  destruct (Ascii.eqb_spec c dquote) as [->|Hq]; [simpl; now rewrite IH|].
  simpl. apply Ascii.eqb_neq in Ha. now rewrite Ha, IH.
Qed.

Lemma unescape_escHtml (s : string) : unescape (escHtml s) = s.
Proof. rewrite escHtml_escape_each. apply unescape_escape_each. Qed.

(** X1.  [escHtml] loses nothing: two texts with the same escaped form are
    the same text. *)
Theorem escHtml_injective (a b : string) : escHtml a = escHtml b -> a = b.
Proof.
  intros H. rewrite <- (unescape_escHtml a), <- (unescape_escHtml b).
  now rewrite H.
Qed.

Lemma escHtml_injective_witness : "a<b" = "a<b".
Proof. apply (escHtml_injective "a<b" "a<b"). reflexivity. Defined.

(** X2.  [escHtml] works character by character: the escaped form of a
    concatenation is the concatenation of the escaped forms. *)
Theorem escHtml_app (a b : string) : escHtml (a ++ b) = escHtml a ++ escHtml b.
Proof.
  unfold escHtml. now rewrite !replace_char_app.
Qed.

Lemma length_escape_each (s : string) :
  String.length (escape_each s) =
  (String.length s + 4 * count_char amp s + 3 * count_char lt_sign s
   + 3 * count_char gt_sign s + 5 * count_char dquote s)%nat.
Proof.
  induction s as [|c r IH]; [reflexivity|].
  simpl escape_each. rewrite length_append, IH. unfold entity. simpl.
  destruct (Ascii.eqb_spec c amp) as [->|Ha]; [simpl; lia|].
  destruct (Ascii.eqb_spec c lt_sign) as [->|Hl]; [simpl; lia|].
  destruct (Ascii.eqb_spec c gt_sign) as [->|Hg]; [simpl; lia|].
  destruct (Ascii.eqb_spec c dquote) as [->|Hq]; [simpl; lia|].
  simpl. lia.
Qed.

(** X3.  The escaped text is longer by four characters for every [&],
    three for every [<] and [>], and five for every double quote. *)
Theorem escHtml_length (s : string) :
  String.length (escHtml s) =
  (String.length s + 4 * count_char amp s + 3 * count_char lt_sign s
   + 3 * count_char gt_sign s + 5 * count_char dquote s)%nat.
Proof. rewrite escHtml_escape_each. apply length_escape_each. Qed.

Lemma count_amp_escape_each (s : string) :
  count_char amp (escape_each s) = specials s.
Proof.
  unfold specials. induction s as [|c r IH]; [reflexivity|].
  simpl escape_each. rewrite count_char_app, IH. unfold entity. simpl.
  destruct (Ascii.eqb_spec c amp) as [->|Ha]; [simpl; lia|].
  destruct (Ascii.eqb_spec c lt_sign) as [->|Hl]; [simpl; lia|].
  destruct (Ascii.eqb_spec c gt_sign) as [->|Hg]; [simpl; lia|].
  destruct (Ascii.eqb_spec c dquote) as [->|Hq]; [simpl; lia|].
  simpl. apply Ascii.eqb_neq in Ha. rewrite Ha. lia.
Qed.

Lemma escape_each_plain (s : string) : specials s = 0%nat -> escape_each s = s.
Proof.
  unfold specials. induction s as [|c r IH]; [reflexivity|].
  simpl. unfold entity.
  destruct (Ascii.eqb c amp); [lia|].
  destruct (Ascii.eqb c lt_sign); [lia|].
  destruct (Ascii.eqb c gt_sign); [lia|].
  destruct (Ascii.eqb c dquote); [lia|].
  intros H. simpl. rewrite IH; [reflexivity|lia].
Qed.

(** X4.  [escHtml] leaves a text as it is exactly when the text has none of
    the four characters; and it is not idempotent: escaping an escaped text
    changes it again unless there was nothing to escape. *)
Theorem escHtml_fixed_iff (s : string) :
  (escHtml s = s <-> specials s = 0%nat) /\
  (escHtml (escHtml s) = escHtml s <-> specials s = 0%nat).
Proof.
  assert (Hfix : forall t, escHtml t = t <-> specials t = 0%nat).
  { intros t. split.
    - intros H. pose proof (length_escape_each t) as L.
      rewrite <- escHtml_escape_each, H in L. unfold specials. lia.
    - intros H. rewrite escHtml_escape_each. now apply escape_each_plain. }
  split; [apply Hfix|].
  split.
  - intros H. apply Hfix in H. unfold specials in H.
    assert (E : count_char amp (escHtml s) = 0%nat) by lia.
    rewrite escHtml_escape_each, count_amp_escape_each in E. exact E.
  - intros H. apply Hfix in H. now rewrite H.
Qed.

(* ------------------------------------------------------------------------- *)
(** ** More on [filterFiles] *)

Lemma filter_idem {A : Type} (P : A -> bool) (l : list A) :
  filter P (filter P l) = filter P l.
Proof.
  induction l as [|x l IH]; [reflexivity|]. simpl.
  destruct (P x) eqn:E; [|exact IH]. simpl. now rewrite E, IH.
Qed.

Lemma filter_narrow {A : Type} (P Q : A -> bool) (l : list A) :
  (forall x, Q x = true -> P x = true) ->
  filter Q (filter P l) = filter Q l.
Proof.
  intros H. induction l as [|x l IH]; [reflexivity|]. simpl.
  destruct (P x) eqn:E; simpl; [now rewrite IH|].
  destruct (Q x) eqn:F; [|exact IH].
  apply H in F. congruence.
Qed.

Lemma substring_trans (a b c : string) :
  substring a b -> substring b c -> substring a c.
Proof.
  intros [p1 [q1 ->]] [p2 [q2 ->]].
  exists (p2 ++ p1), (q1 ++ q2). now rewrite !append_assoc.
Qed.

Lemma includes_iff (s p : string) : includes s p = true <-> substring p s.
Proof. split; [apply includes_substring|apply substring_includes]. Qed.

Section FilterProperties.
Context {host : Host}.

(** X5.  For a query that is not empty, [filterFiles] returns exactly the
    records that hold the query, letter case aside, in their title,
    description or category: none is missed. *)
Theorem filterFiles_exact (files : list FileObject) (query : string)
        (f : FileObject) :
  query <> EmptyString ->
  (In f (filterFiles files query) <-> In f files /\ matches query f).
Proof.
  intros Hq. unfold filterFiles.
  destruct (String.eqb_spec query EmptyString) as [E|_]; [contradiction|].
  rewrite filter_In. unfold matches.
  rewrite !orb_true_iff, !includes_iff. tauto.
Qed.

(** X6.  Filtering works record by record: the result for a concatenation
    is the concatenation of the results, and filtering a result again with
    the same query changes nothing. *)
Theorem filterFiles_app_idem (a b : list FileObject) (query : string) :
  filterFiles (a ++ b) query
  = (filterFiles a query ++ filterFiles b query)%list /\
  filterFiles (filterFiles a query) query = filterFiles a query.
Proof.
  unfold filterFiles.
  destruct (String.eqb query EmptyString); [split; reflexivity|].
  split; [apply filter_app|apply filter_idem].
Qed.

(** X7.  Typing on never brings a record back: when the query [q] occurs
    in the longer query [q'], letter case aside, the result for [q'] is the
    result for [q] filtered by [q'], a subsequence of it. *)
Theorem filterFiles_refine (files : list FileObject) (q q' : string) :
  q' <> EmptyString ->
  substring (toLowerCase q) (toLowerCase q') ->
  filterFiles files q' = filterFiles (filterFiles files q) q' /\
  subsequence (filterFiles files q') (filterFiles files q).
Proof.
  intros Hq' Hsub.
  assert (E : filterFiles files q' = filterFiles (filterFiles files q) q').
  { unfold filterFiles.
    destruct (String.eqb_spec q' EmptyString) as [|_]; [contradiction|].
    destruct (String.eqb q EmptyString); [reflexivity|].
    symmetry. apply filter_narrow. intros f.
    rewrite !orb_true_iff, !includes_iff.
    intros [[H|H]|H]; eauto using substring_trans. }
  split; [exact E|].
  rewrite E. unfold filterFiles at 1.
  destruct (String.eqb q' EmptyString);
    [apply subsequence_refl|apply subsequence_filter].
Qed.

End FilterProperties.

Lemma filterFiles_exact_witness :
  In (mkFile "A" "X" "" "pdfs/x.pdf" "2024-01-01") (filterFiles catalog "x")
  <-> In (mkFile "A" "X" "" "pdfs/x.pdf" "2024-01-01") catalog /\
      matches "x" (mkFile "A" "X" "" "pdfs/x.pdf" "2024-01-01").
Proof.
  apply (filterFiles_exact catalog "x"). discriminate.
Defined.

Lemma filterFiles_refine_witness :
  filterFiles files "pyt" = filterFiles (filterFiles files "py") "pyt" /\
  subsequence (filterFiles files "pyt") (filterFiles files "py").
Proof.
  apply (filterFiles_refine files "py" "pyt"); [discriminate|].
  exists EmptyString, "t". reflexivity.
Defined.

(* ------------------------------------------------------------------------- *)
(** ** More on sorting and grouping *)

Lemma filter_comm {A : Type} (P Q : A -> bool) (l : list A) :
  filter P (filter Q l) = filter Q (filter P l).
Proof.
  induction l as [|x l IH]; [reflexivity|]. simpl.
  destruct (P x) eqn:Ep, (Q x) eqn:Eq; simpl; rewrite ?Ep, ?Eq, IH;
    reflexivity.
Qed.

Lemma StronglySorted_filter {A : Type} (R : A -> A -> Prop) (P : A -> bool)
      (l : list A) :
  StronglySorted R l -> StronglySorted R (filter P l).
Proof.
  induction 1 as [|a l Hs IH Ha]; simpl; [constructor|].
  destruct (P a); [|exact IH].
  constructor; [exact IH|].
  rewrite Forall_forall in *. intros x Hx. apply filter_In in Hx as [Hx _].
  auto.
Qed.

Section SortMore.
Context {A : Type}.
Variable comparefn : A -> A -> option Z.

(** A list that is in order already is left as it is. *)
Lemma sort_by_sorted_id (l : list A) :
  StronglySorted (before comparefn) l -> sort_by comparefn l = l.
Proof.
  induction 1 as [|a l Hs IH Ha]; [reflexivity|].
  simpl. rewrite IH. destruct l as [|b l]; [reflexivity|].
  simpl. inversion Ha as [|? ? Hab _]; subst. unfold before in Hab.
  apply Z.ltb_ge in Hab. now rewrite Hab.
Qed.

Variable dom : A -> Prop.
Hypothesis total :
  forall a b, dom a -> dom b ->
              (0 < SortCompare comparefn a b)%Z -> before comparefn b a.
Hypothesis trans :
  forall a b c, dom a -> dom b -> dom c ->
                before comparefn a b -> before comparefn b c ->
                before comparefn a c.

(** Where the comparator is consistent, leaving elements out and sorting
    can be done in either order. *)
Lemma sort_by_filter_comm (P : A -> bool) (l : list A) :
  Forall dom l ->
  filter P (sort_by comparefn l) = sort_by comparefn (filter P l).
Proof.
  intros Dl.
  assert (Dfl : Forall dom (filter P l)).
  { rewrite Forall_forall in *. intros x Hx.
    apply filter_In in Hx as [Hx _]. auto. }
  apply (sort_by_canonical comparefn dom total trans); auto.
  - rewrite Forall_forall in *. intros x Hx.
    apply filter_In in Hx as [Hx _].
    apply (Permutation_in _ (sort_by_perm comparefn l)) in Hx. auto.
  - apply StronglySorted_filter.
    now apply (sort_by_sorted comparefn dom total trans).
  - intros x Dx. rewrite filter_comm, (filter_comm _ P l). f_equal.
    apply sort_by_filter. intros a b Ha Hb Ta Tb.
    rewrite Forall_forall in Dl.
    apply tie_before in Ta as [_ Hax]. apply tie_before in Tb as [Hxb _].
    apply (trans a x b); auto.
Qed.

End SortMore.

Section MapMore.
Context {V : Type}.

Lemma map_get_in (k : string) (v : V) (m : JsMap V) :
  NoDup (map_keys m) -> In (k, v) m -> map_get k m = Some v.
Proof.
  unfold map_keys. induction m as [|[k' v'] m IH]; simpl; [intros _ []|].
  intros ND [E|Hin].
  - inversion E; subst. now rewrite String.eqb_refl.
  - inversion ND as [|? ? Hk NDm]; subst.
    destruct (String.eqb_spec k' k) as [->|_]; [|now apply IH].
    exfalso. apply Hk. apply in_map_iff. now exists (k, v).
Qed.

Lemma map_get_none (k : string) (m : JsMap V) :
  ~ In k (map_keys m) -> map_get k m = None.
Proof.
  unfold map_keys. induction m as [|[k' v'] m IH]; simpl; [reflexivity|].
  intros H. destruct (String.eqb_spec k' k) as [->|_]; [tauto|].
  apply IH. tauto.
Qed.

End MapMore.

Section GroupingMore.
Context {host : Host}.

Lemma group_has (l : list FileObject) (k : string) :
  In k (categories l) ->
  In (k, sort_by newest_first (bucket k l)) (groupByCategory l).
Proof.
  intros Hk. rewrite groupByCategory_eq.
  apply (Permutation_in _ (Permutation_sym (sort_by_perm by_name _))).
  apply in_map_iff. now exists k.
Qed.

Lemma group_keys_NoDup (l : list FileObject) :
  NoDup (map_keys (groupByCategory l)).
Proof.
  apply (Permutation_NoDup (Permutation_sym (group_keys l))).
  apply categories_NoDup.
Qed.

(** X9.  The grouping has one entry per category of the input, never more
    entries than records, and none exactly when the input is empty. *)
Theorem group_size (l : list FileObject) :
  NoDup (map_keys (groupByCategory l)) /\
  (forall k, In k (map_keys (groupByCategory l))
             <-> In k (List.map category l)) /\
  (length (groupByCategory l) <= length l)%nat /\
  (length (groupByCategory l) = 0%nat <-> l = []).
Proof.
  assert (Hk : forall k, In k (map_keys (groupByCategory l))
                         <-> In k (List.map category l)).
  { intros k. rewrite <- categories_In. split; intros H.
    - apply (Permutation_in _ (group_keys l)). exact H.
    - apply (Permutation_in _ (Permutation_sym (group_keys l))). exact H. }
  split; [apply group_keys_NoDup|split; [exact Hk|split]].
  - rewrite <- (length_map fst (groupByCategory l)).
    rewrite <- (length_map category l).
    apply NoDup_incl_length; [apply group_keys_NoDup|].
    intros k. apply Hk.
  - split.
    + intros H. destruct l as [|f l]; [reflexivity|].
      assert (Hin : In (category f) (map_keys (groupByCategory (f :: l)))).
      { apply Hk. now left. }
      destruct (groupByCategory (f :: l)); [destruct Hin|discriminate].
    + intros ->. reflexivity.
Qed.

Lemma newest_first_total (a b : FileObject) :
  parses a -> parses b ->
  (0 < SortCompare newest_first a b)%Z -> before newest_first b a.
Proof.
  unfold parses, before, SortCompare, newest_first, num_sub.
  destruct (dateValue (updated a)), (dateValue (updated b)); lia.
Qed.

Lemma newest_first_trans (a b c : FileObject) :
  parses a -> parses b -> parses c ->
  before newest_first a b -> before newest_first b c ->
  before newest_first a c.
Proof.
  unfold parses, before, SortCompare, newest_first, num_sub.
  destruct (dateValue (updated a)), (dateValue (updated b)),
    (dateValue (updated c)); try lia; congruence.
Qed.

(** X10.  A search removes cards and moves none: with dates that parse,
    every bucket of the grouping of the filtered list is the bucket of the
    same category in the grouping of the full list, filtered. *)
Theorem search_keeps_order (files : list FileObject) (query : string)
        (k : string) (es : list FileObject) :
  Forall parses files ->
  In (k, es) (groupByCategory (filterFiles files query)) ->
  exists es0,
    In (k, es0) (groupByCategory files) /\
    es = filterFiles es0 query /\
    subsequence es es0.
Proof.
  intros Hp H. apply in_group in H as [Hk ->].
  exists (sort_by newest_first (bucket k files)).
  assert (Hsub : forall f, In f (filterFiles files query) -> In f files).
  { intros f. unfold filterFiles.
    destruct (String.eqb query EmptyString); [auto|].
    intros Hf. now apply filter_In in Hf. }
  split.
  - apply group_has, categories_In.
    apply categories_In, in_map_iff in Hk as [f [<- Hf]].
    apply in_map. auto.
  - assert (E : sort_by newest_first (bucket k (filterFiles files query))
                = filterFiles (sort_by newest_first (bucket k files)) query).
    { unfold filterFiles.
      destruct (String.eqb query EmptyString); [reflexivity|].
      unfold bucket. rewrite filter_comm. symmetry.
      apply (sort_by_filter_comm newest_first parses newest_first_total
                                 newest_first_trans).
      rewrite Forall_forall in *. intros f Hf.
      apply filter_In in Hf as [Hf _]. auto. }
    split; [exact E|]. rewrite E. unfold filterFiles.
    destruct (String.eqb query EmptyString);
      [apply subsequence_refl|apply subsequence_filter].
Qed.

End GroupingMore.

(* ------------------------------------------------------------------------- *)
(** ** Grouping a grouping again *)

Lemma bucket_all (k : string) (es : list FileObject) :
  Forall (fun f => category f = k) es -> bucket k es = es.
Proof.
  induction 1 as [|f es Hf _ IH]; [reflexivity|].
  rewrite bucket_cons, IH. apply String.eqb_eq in Hf. now rewrite Hf.
Qed.

Lemma bucket_other (k k' : string) (es : list FileObject) :
  k <> k' -> Forall (fun f => category f = k') es -> bucket k es = [].
Proof.
  intros Hne. induction 1 as [|f es Hf _ IH]; [reflexivity|].
  rewrite bucket_cons, IH.
  destruct (String.eqb_spec (category f) k); [congruence|reflexivity].
Qed.

Lemma see_known (k : string) (es : list FileObject) (acc : list string) :
  In k acc -> Forall (fun f => category f = k) es ->
  fold_left see (List.map category es) acc = acc.
Proof.
  intros Hk. induction 1 as [|f es Hf _ IH]; [reflexivity|].
  simpl. unfold see at 2. rewrite Hf.
  apply existsb_eqb in Hk. now rewrite Hk.
Qed.

Lemma see_new (k : string) (es : list FileObject) (acc : list string) :
  ~ In k acc -> es <> [] -> Forall (fun f => category f = k) es ->
  fold_left see (List.map category es) acc = (acc ++ [k])%list.
Proof.
  intros Hk Hne Hall. destruct es as [|f es]; [contradiction|].
  inversion Hall as [|? ? Hf Hes]; subst. simpl. unfold see at 2.
  destruct (existsb _ acc) eqn:E; [apply existsb_eqb in E; contradiction|].
  eapply see_known; [|exact Hes]. apply in_or_app. right. now left.
Qed.

Lemma categories_concat (E : JsMap (list FileObject)) (acc : list string) :
  NoDup (acc ++ map_keys E) -> well_keyed E ->
  fold_left see (List.map category (concat (List.map snd E))) acc
  = (acc ++ map_keys E)%list.
Proof.
  revert acc. induction E as [|[k es] E IH]; intros acc ND WK; simpl.
  - now rewrite app_nil_r.
  - inversion WK as [|? ? [Hne Hall] WK']; subst. simpl in *.
    rewrite map_app, fold_left_app.
    rewrite (see_new k es acc); auto.
    + rewrite IH; auto; rewrite <- app_assoc; [reflexivity|exact ND].
    + apply NoDup_remove_2 in ND. intros Hin. apply ND.
      apply in_or_app. now left.
Qed.

Lemma bucket_concat_none (k : string) (E : JsMap (list FileObject)) :
  ~ In k (map_keys E) -> well_keyed E ->
  bucket k (concat (List.map snd E)) = [].
Proof.
  induction E as [|[k' es] E IH]; intros Hk WK; [reflexivity|].
  inversion WK as [|? ? [_ Hall] WK']; subst. simpl in *.
  unfold bucket in *. rewrite filter_app.
  fold (bucket k es).
  rewrite (bucket_other k k' es);
    [|intros ->; apply Hk; now left|exact Hall].
  apply IH; [|exact WK']. intros Hin. apply Hk. now right.
Qed.

Lemma bucket_concat (k : string) (es : list FileObject)
      (E : JsMap (list FileObject)) :
  NoDup (map_keys E) -> well_keyed E -> In (k, es) E ->
  bucket k (concat (List.map snd E)) = es.
Proof.
  induction E as [|[k' es'] E IH]; intros ND WK Hin; [destruct Hin|].
  inversion WK as [|? ? [_ Hall] WK']; subst.
  inversion ND as [|? ? Hk' ND']; subst. simpl in *.
  unfold bucket. rewrite filter_app. fold (bucket k es').
  fold (bucket k (concat (List.map snd E))).
  destruct Hin as [Eq|Hin].
  - inversion Eq; subst. rewrite (bucket_all k es Hall).
    rewrite bucket_concat_none; auto. apply app_nil_r.
  - assert (Hne : k <> k').
    { intros ->. apply Hk'. apply in_map_iff. now exists (k', es). }
    rewrite (bucket_other k k' es' Hne Hall). simpl. now apply IH.
Qed.

Section Regroup.
Context {host : Host}.

Lemma group_well_keyed (l : list FileObject) : well_keyed (groupByCategory l).
Proof.
  apply Forall_forall. intros [k es] H. simpl.
  apply in_group in H as [Hk ->]. split.
  - intros E.
    assert (Hb : bucket k l = []).
    { apply Permutation_nil. rewrite <- E. apply sort_by_perm. }
    apply bucket_nil_iff in Hb. apply Hb, categories_In, Hk.
  - apply (Permutation_Forall (Permutation_sym (sort_by_perm _ _))).
    apply Forall_forall. intros f Hf. apply filter_In in Hf as [_ Hf].
    now apply String.eqb_eq.
Qed.

(** X11.  Grouping is idempotent: with a consistent [localeCompare] and
    dates that parse, the records of a grouping, read bucket after bucket,
    group into the same grouping. *)
Theorem regroup (l : list FileObject) :
  consistent localeCompare -> Forall parses l ->
  groupByCategory (concat (List.map snd (groupByCategory l)))
  = groupByCategory l.
Proof.
  intros [Htot Htrans] Hp.
  pose proof (group_well_keyed l) as WK.
  pose proof (group_keys_NoDup l) as ND.
  rewrite (groupByCategory_eq (concat _)). unfold categories.
  rewrite (categories_concat _ []) by assumption. simpl.
  unfold map_keys. rewrite map_map.
  rewrite (map_ext_in _ (fun e => e)).
  - rewrite map_id. apply sort_by_sorted_id.
    rewrite groupByCategory_eq.
    apply (sort_by_sorted by_name (fun _ => True)).
    + intros a b _ _. unfold before, SortCompare, by_name. apply Htot.
    + intros a b c _ _ _. unfold before, SortCompare, by_name. apply Htrans.
    + apply Forall_forall. intros; exact I.
  - intros [k es] Hin. simpl.
    rewrite (bucket_concat k es) by assumption.
    f_equal. apply sort_by_sorted_id.
    apply in_group in Hin as [_ ->].
    apply (sort_by_sorted newest_first parses newest_first_total
                          newest_first_trans).
    rewrite Forall_forall in *. intros f Hf.
    apply filter_In in Hf as [Hf _]. auto.
Qed.

End Regroup.

Lemma regroup_witness :
  groupByCategory (concat (List.map snd (groupByCategory catalog)))
  = groupByCategory catalog.
Proof.
  apply (regroup catalog).
  - exact code_unit_compare_consistent.
  - repeat constructor; discriminate.
Defined.

(* ------------------------------------------------------------------------- *)
(** ** More on rendering *)

Lemma substring_head (p b : string) : substring p (p ++ b).
Proof. now exists EmptyString, b. Qed.

Lemma substring_refl (p : string) : substring p p.
Proof.
  exists EmptyString, EmptyString. simpl.
  induction p as [|c p IH]; simpl; [reflexivity|]. now rewrite <- IH.
Qed.

Lemma substring_app_r (p a b : string) : substring p b -> substring p (a ++ b).
Proof.
  intros [pre [post ->]]. exists (a ++ pre), post. now rewrite append_assoc.
Qed.

Lemma substring_app_l (p a b : string) : substring p a -> substring p (a ++ b).
Proof.
  intros [pre [post ->]]. exists pre, (post ++ b). now rewrite !append_assoc.
Qed.

Lemma substring_join (sep x : string) (l : list string) :
  In x l -> substring x (join sep l).
Proof.
  induction l as [|y l IH]; [intros []|].
  intros Hin. destruct l as [|z l].
  - destruct Hin as [->|[]]. apply substring_refl.
  - change (join sep (y :: z :: l)) with (y ++ sep ++ join sep (z :: l)).
    destruct Hin as [->|Hin]; [apply substring_head|].
    apply substring_app_r, substring_app_r. now apply IH.
Qed.

Lemma substring_fold {A : Type} (g : A -> string) (p : string) (l : list A)
      (acc : string) :
  (substring p acc \/ exists e, In e l /\ substring p (g e)) ->
  substring p (fold_left (fun html e => html ++ g e) l acc).
Proof.
  revert acc. induction l as [|x l IH]; intros acc H; simpl.
  - destruct H as [H|[e [[] _]]]. exact H.
  - apply IH. destruct H as [H|[e [[<-|Hin] He]]].
    + left. now apply substring_app_l.
    + left. now apply substring_app_r.
    + right. eauto.
Qed.

Section RenderMore.
Context {host : Host}.

Ltac find_here :=
  first [apply substring_head | apply substring_app_r; find_here].

Lemma renderCategory_cards (name : string) (entries : list FileObject)
      (f : FileObject) :
  In f entries -> substring (renderCard f) (renderCategory name entries).
Proof.
  intros Hin.
  apply (substring_trans _ (join nl (List.map renderCard entries))).
  - apply substring_join. now apply in_map.
  - unfold renderCategory.
    generalize (join nl (List.map renderCard entries)) as cards.
    intros cards. unfold q. rewrite !append_assoc. find_here.
Qed.

Lemma renderCategory_heading (name : string) (entries : list FileObject) :
  substring (escHtml name) (renderCategory name entries).
Proof.
  unfold renderCategory. generalize (escHtml name) as heading.
  intros heading. unfold q. rewrite !append_assoc. find_here.
Qed.

Lemma renderAll_page (l : list FileObject) (d : Document) (old : string) :
  app d = Some old ->
  renderAll l d =
  Some (mkDocument (Some (page_html l))
                   (if (length (groupByCategory l) =? 0)%nat
                    then frames d else S (frames d))).
Proof.
  intros Ha. unfold renderAll, page_html. rewrite Ha.
  destruct (length (groupByCategory l) =? 0)%nat; reflexivity.
Qed.

(** X12.  No record is left out of the page: with a host container, what
    [renderAll] writes holds the card of every record of the list and the
    escaped name of its category. *)
Theorem renderAll_shows (l : list FileObject) (d : Document) (old : string)
        (f : FileObject) :
  app d = Some old -> In f l ->
  exists html n,
    renderAll l d = Some (mkDocument (Some html) n) /\
    includes html (renderCard f) = true /\
    includes html (escHtml (category f)) = true.
Proof.
  intros Ha Hf. rewrite (renderAll_page l d old Ha).
  eexists. eexists. split; [reflexivity|].
  assert (Hin : In (category f,
                    sort_by newest_first (bucket (category f) l))
                   (groupByCategory l)).
  { apply group_has, categories_In. now apply in_map. }
  assert (Hlen : (length (groupByCategory l) =? 0)%nat = false).
  { destruct (groupByCategory l); [destruct Hin|reflexivity]. }
  unfold page_html. rewrite Hlen.
  split; apply includes_iff, substring_fold; right;
    eexists; (split; [exact Hin|]); simpl.
  - apply renderCategory_cards.
    apply (Permutation_in _ (Permutation_sym (sort_by_perm _ _))).
    apply filter_In. split; [exact Hf|apply String.eqb_refl].
  - apply renderCategory_heading.
Qed.

(** X13.  [renderAll] overwrites: what it leaves in the container depends
    on the list only and not on what the container held, so rendering the
    same list again leaves the same content; every render of a list that
    is not empty asks for one more animation frame, a render of the empty
    list for none. *)
Theorem renderAll_overwrites (l : list FileObject) (d1 d2 : Document)
        (o1 o2 : string) :
  app d1 = Some o1 -> app d2 = Some o2 ->
  exists r1 r2 r1',
    renderAll l d1 = Some r1 /\ renderAll l d2 = Some r2 /\
    app r1 = app r2 /\
    renderAll l r1 = Some r1' /\ app r1' = app r1 /\
    frames r1 = (frames d1 + (match l with [] => 0 | _ :: _ => 1 end))%nat.
Proof.
  intros H1 H2.
  rewrite (renderAll_page l d1 o1 H1), (renderAll_page l d2 o2 H2).
  eexists. eexists. eexists.
  split; [reflexivity|split; [reflexivity|split; [reflexivity|]]].
  split; [apply (renderAll_page l _ (page_html l)); reflexivity|].
  split; [reflexivity|]. simpl.
  destruct l as [|f l]; [simpl; lia|].
  assert (Hin : In (category f) (map_keys (groupByCategory (f :: l)))).
  { apply (Permutation_in _ (Permutation_sym (group_keys _))).
    apply categories_In. now left. }
  destruct (groupByCategory (f :: l)); [destruct Hin|simpl; lia].
Qed.

(** [renderAll] throws exactly when the page has no host container,
    whatever the list is, the empty list included. *)
Lemma renderAll_throws_iff (l : list FileObject) (d : Document) :
  renderAll l d = None <-> app d = None.
Proof.
  unfold renderAll. destruct (app d) as [old|].
  - destruct (length (groupByCategory l) =? 0)%nat; split; discriminate.
  - split; reflexivity.
Qed.

End RenderMore.

Lemma renderAll_shows_witness :
  exists html n,
    renderAll files (mkDocument (Some EmptyString) 0)
    = Some (mkDocument (Some html) n) /\
    includes html (renderCard (hd (mkFile "" "" "" "" "") files)) = true /\
    includes html (escHtml "Data Analysis") = true.
Proof.
  apply (renderAll_shows files (mkDocument (Some EmptyString) 0) EmptyString
                         (hd (mkFile "" "" "" "" "") files)).
  - reflexivity.
  - left. reflexivity.
Defined.

Lemma renderAll_overwrites_witness :
  exists r1 r2 r1',
    renderAll catalog (mkDocument (Some EmptyString) 0) = Some r1 /\
    renderAll catalog (mkDocument (Some empty_state) 2) = Some r2 /\
    app r1 = app r2 /\
    renderAll catalog r1 = Some r1' /\ app r1' = app r1 /\
    frames r1 = (0 + 1)%nat.
Proof.
  apply (renderAll_overwrites catalog (mkDocument (Some EmptyString) 0)
                              (mkDocument (Some empty_state) 2)
                              EmptyString empty_state); reflexivity.
Defined.

(* ------------------------------------------------------------------------- *)
(** ** More on the search controller *)

Section ControllerMore.
Context {host : Host}.
Variable files : list FileObject.

Lemma quiet_advance (d0 : Document) (t : Z) (p : Page) :
  quiet d0 p -> quiet d0 (advance files t p).
Proof.
  destruct p as [d i li c ts n db rs]. unfold quiet. simpl.
  intros (-> & -> & -> & -> & ->). unfold advance. simpl. auto.
Qed.

Lemma quiet_step (d0 : Document) (p : Page) (e : Event) :
  quiet d0 p -> quiet d0 (step files p e).
Proof.
  intros H. apply (quiet_advance d0 (event_time e)) in H.
  unfold step. destruct (advance files (event_time e) p)
    as [d i li c ts n db rs].
  unfold quiet in *. simpl in H. destruct H as (-> & -> & -> & -> & ->).
  destruct e; simpl; auto.
Qed.

Lemma quiet_run (d0 : Document) (es : list Event) (p : Page) :
  quiet d0 p -> quiet d0 (run files es p).
Proof.
  revert p. induction es as [|e es IH]; intros p H; [exact H|].
  simpl. apply IH. now apply quiet_step.
Qed.

(** X14.  A page with no search box gets no listener: whatever happens
    afterwards, no timeout is set, nothing is rendered again and the
    document stays as [init] left it. *)
Theorem no_search_box (d : Document) (p0 : Page) (es : list Event) (T : Z) :
  init files (loaded d None) = Some p0 ->
  listening (advance files T (run files es p0)) = false /\
  timers (advance files T (run files es p0)) = [] /\
  renders (advance files T (run files es p0)) = [] /\
  doc (advance files T (run files es p0)) = doc p0.
Proof.
  intros Hinit.
  assert (Hq : quiet (doc p0) p0).
  { unfold init, loaded in Hinit. simpl in Hinit.
    destruct (renderAll files d); [|discriminate].
    inversion Hinit; subst. unfold quiet, initSearch. simpl. auto. }
  apply (quiet_run _ es), (quiet_advance _ T) in Hq.
  destruct Hq as (H1 & _ & H3 & H4 & H5). auto.
Qed.

Lemma init_started (d : Document) (box : option string) (p0 : Page) :
  init files (loaded d box) = Some p0 ->
  app (doc p0) = Some (page_html files) /\
  listening p0 = (match box with Some _ => true | None => false end) /\
  timers p0 = [] /\ renders p0 = [] /\ input p0 = box.
Proof.
  unfold init, loaded. simpl. destruct (app d) as [old|] eqn:Ha.
  - rewrite (renderAll_page files d old Ha). intros E.
    inversion E; subst. unfold initSearch. simpl.
    destruct box; simpl; auto.
  - unfold renderAll. rewrite Ha. discriminate.
Qed.

(** X15.  [init] throws exactly when the page has no host container, and
    then attaches nothing; otherwise it leaves the whole catalog in the
    container, sets no timeout, and listens exactly when the page has a
    search box. *)
Theorem init_result (d : Document) (box : option string) :
  (init files (loaded d box) = None <-> app d = None) /\
  (forall p0, init files (loaded d box) = Some p0 ->
              app (doc p0) = Some (page_html files) /\
              listening p0 = (match box with Some _ => true | None => false end)
              /\ timers p0 = [] /\ renders p0 = [] /\ input p0 = box).
Proof.
  split; [|apply init_started].
  unfold init, loaded. simpl.
  destruct (app d) as [old|] eqn:Ha.
  - rewrite (renderAll_page files d old Ha). split; discriminate.
  - unfold renderAll. rewrite Ha. split; reflexivity.
Qed.

Lemma on_timeout_app (t : Z) (p : Page) :
  app (doc p) <> None -> app (doc (on_timeout files t p)) <> None.
Proof.
  intros H. unfold on_timeout. destruct (input p) as [v|]; [|exact H].
  simpl. destruct (app (doc p)) as [old|] eqn:Ha; [|contradiction].
  rewrite (renderAll_page _ _ old Ha). simpl. discriminate.
Qed.

Lemma fold_fire_app (due : list (nat * Z)) (p : Page) :
  app (doc p) <> None -> app (doc (fold_left (fire files) due p)) <> None.
Proof.
  revert p. induction due as [|e due IH]; intros p H; [exact H|].
  simpl. apply IH. unfold fire. now apply on_timeout_app.
Qed.

Lemma advance_app (t : Z) (p : Page) :
  app (doc p) <> None -> app (doc (advance files t p)) <> None.
Proof.
  intros H. unfold advance. simpl. now apply fold_fire_app.
Qed.

Lemma step_app (p : Page) (e : Event) :
  app (doc p) <> None -> app (doc (step files p e)) <> None.
Proof.
  intros H. apply (advance_app (event_time e)) in H. unfold step.
  destruct e; simpl; [|exact H].
  destruct (listening _); exact H.
Qed.

Lemma run_app (es : list Event) (p : Page) :
  app (doc p) <> None -> app (doc (run files es p)) <> None.
Proof.
  revert p. induction es as [|e es IH]; intros p H; [exact H|].
  simpl. apply IH. now apply step_app.
Qed.

(** X16.  When the typing stops the page catches up: a debounce delay
    after the last [input] event the timeout has run, nothing is pending,
    and the container holds the catalog filtered by the trimmed value that
    was typed last. *)
Theorem search_settles (d : Document) (v0 : string) (p0 : Page)
        (es : list Event) (t : Z) (v : string) (T : Z) :
  init files (loaded d (Some v0)) = Some p0 ->
  StronglySorted Z.le (0%Z :: List.map event_time (es ++ [Typed t v])) ->
  (t + debounce_delay <= T)%Z ->
  app (doc (advance files T (run files (es ++ [Typed t v]) p0)))
  = Some (page_html (filterFiles files (trim v))) /\
  hd_error (renders (advance files T (run files (es ++ [Typed t v]) p0)))
  = Some ((t + debounce_delay)%Z, v) /\
  timers (advance files T (run files (es ++ [Typed t v]) p0)) = [].
Proof.
  intros Hinit Hs HT.
  rewrite map_app in Hs. simpl in Hs.
  change (0%Z :: (List.map event_time es ++ [t])%list)
    with ((0%Z :: List.map event_time es) ++ [t])%list in Hs.
  apply StronglySorted_snoc in Hs as [Hs Hle].
  destruct (good_run files d v0 p0 es Hinit Hs) as (c & HG & Hc).
  assert (Hct : (c <= t)%Z).
  { rewrite Forall_forall in Hle. apply Hle.
    destruct Hc as [->|Hc]; [now left|now right]. }
  assert (Happ : app (doc (run files es p0)) <> None).
  { apply run_app.
    destruct (init_started d (Some v0) p0 Hinit) as [Ha _].
    rewrite Ha. discriminate. }
  apply (good_advance files es v0 c t) in HG.
  apply (advance_app t) in Happ.
  rewrite Z.max_r in HG by exact Hct.
  unfold run. rewrite fold_left_app. cbn [fold_left]. fold (run files es p0).
  unfold step. cbn [event_time].
  remember (advance files t (run files es p0)) as p1 eqn:Ep1. clear Ep1.
  destruct p1 as [d1 i1 li1 c1 ts1 n1 db1 rs1].
  destruct HG as (Hl & Hi & Hclk & _ & Hts & _). simpl in *. subst li1 c1.
  rewrite Hi. simpl.
  assert (Hclear : clearTimeout db1 ts1 = []).
  { destruct Hts as [->|(id & due & -> & -> & _)].
    - destruct db1; reflexivity.
    - simpl. now rewrite Nat.eqb_refl. }
  unfold on_input. simpl. rewrite Hclear. simpl.
  unfold advance. simpl.
  assert (Hdue : (t + debounce_delay <=? T)%Z = true) by now apply Z.leb_le.
  rewrite Hdue. simpl. unfold fire, on_timeout. simpl.
  rewrite Nat.eqb_refl. simpl.
  destruct (app d1) as [old|] eqn:Ha; [|contradiction].
  rewrite (renderAll_page _ d1 old Ha). simpl. auto.
Qed.

(** X17.  The script starts once: whether it runs while the document is
    loading or after, once the document is parsed [init] has run one time,
    and a document that is parsed already is not started again. *)
Theorem boot_once (b : Browser) :
  onDOMContentLoaded b = 0%nat ->
  page (dom_content_loaded files (boot files b)) = run_init files (page b) /\
  dom_content_loaded files (dom_content_loaded files (boot files b))
  = dom_content_loaded files (boot files b).
Proof.
  destruct b as [rs p n]. simpl. intros ->.
  unfold boot, dom_content_loaded. destruct rs; simpl; auto.
Qed.

End ControllerMore.

Lemma no_search_box_witness :
  listening (advance files 1000
               (run files keystrokes
                    (run_init files
                       (loaded (mkDocument (Some EmptyString) 0) None))))
  = false /\
  timers (advance files 1000
            (run files keystrokes
                 (run_init files
                    (loaded (mkDocument (Some EmptyString) 0) None)))) = [] /\
  renders (advance files 1000
             (run files keystrokes
                  (run_init files
                     (loaded (mkDocument (Some EmptyString) 0) None)))) = [] /\
  doc (advance files 1000
         (run files keystrokes
              (run_init files
                 (loaded (mkDocument (Some EmptyString) 0) None))))
  = doc (run_init files (loaded (mkDocument (Some EmptyString) 0) None)).
Proof.
  apply (no_search_box files (mkDocument (Some EmptyString) 0)). reflexivity.
Defined.

Lemma search_settles_witness :
  app (doc (advance files 1000
              (run files ([Typed 0 "p"; Typed 50 "py"] ++ [Typed 100 "pyt"])
                   started)))
  = Some (page_html (filterFiles files (trim "pyt"))) /\
  hd_error (renders
              (advance files 1000
                 (run files ([Typed 0 "p"; Typed 50 "py"] ++ [Typed 100 "pyt"])
                      started)))
  = Some ((100 + debounce_delay)%Z, "pyt") /\
  timers (advance files 1000
            (run files ([Typed 0 "p"; Typed 50 "py"] ++ [Typed 100 "pyt"])
                 started)) = [].
Proof.
  apply (search_settles files (mkDocument (Some EmptyString) 0) EmptyString
                        started [Typed 0 "p"; Typed 50 "py"] 100 "pyt" 1000).
  - reflexivity.
  - simpl.
    repeat first [apply SSorted_nil | apply SSorted_cons
                 | apply Forall_nil | apply Forall_cons]; lia.
  - unfold debounce_delay. lia.
Defined.

Lemma boot_once_witness :
  page (dom_content_loaded files
          (boot files
                (mkBrowser Loading
                           (loaded (mkDocument (Some EmptyString) 0)
                                   (Some EmptyString)) 0)))
  = run_init files (loaded (mkDocument (Some EmptyString) 0)
                           (Some EmptyString)) /\
  dom_content_loaded files
    (dom_content_loaded files
       (boot files
             (mkBrowser Loading
                        (loaded (mkDocument (Some EmptyString) 0)
                                (Some EmptyString)) 0)))
  = dom_content_loaded files
      (boot files
            (mkBrowser Loading
                       (loaded (mkDocument (Some EmptyString) 0)
                               (Some EmptyString)) 0)).
Proof.
  apply (boot_once files
           (mkBrowser Loading
                      (loaded (mkDocument (Some EmptyString) 0)
                              (Some EmptyString)) 0)).
  reflexivity.
Defined.

(* ------------------------------------------------------------------------- *)
(** ** Keystrokes far apart *)

Section SlowTyping.
Context {host : Host}.
Variable files : list FileObject.

Lemma typed_then_wait (es : list Event) (v0 : string) (c t T : Z) (p : Page)
      (v : string) :
  Good es v0 c p -> (c <= t)%Z -> (t + debounce_delay <= T)%Z ->
  renders (advance files T (step files p (Typed t v)))
  = ((t + debounce_delay)%Z, v) :: renders (advance files t p) /\
  timers (advance files T (step files p (Typed t v))) = [].
Proof.
  intros HG Hct HT.
  apply (good_advance files es v0 c t) in HG.
  rewrite Z.max_r in HG by exact Hct.
  unfold step. cbn [event_time].
  remember (advance files t p) as p1 eqn:Ep1. clear Ep1.
  destruct p1 as [d1 i1 li1 c1 ts1 n1 db1 rs1].
  destruct HG as (Hl & Hi & Hclk & _ & Hts & _). simpl in *. subst li1 c1.
  rewrite Hi. simpl.
  assert (Hclear : clearTimeout db1 ts1 = []).
  { destruct Hts as [->|(id & due & -> & -> & _)].
    - destruct db1; reflexivity.
    - simpl. now rewrite Nat.eqb_refl. }
  unfold on_input. simpl. rewrite Hclear. simpl.
  unfold advance. simpl.
  assert (Hdue : (t + debounce_delay <=? T)%Z = true) by now apply Z.leb_le.
  rewrite Hdue. simpl. unfold fire, on_timeout. simpl.
  rewrite Nat.eqb_refl. simpl. auto.
Qed.

End SlowTyping.


(* ------------------------------------------------------------------------- *)
(** ** The sort of V8 and [sort_by] *)

Lemma StronglySorted_app {A : Type} (R : A -> A -> Prop) (l1 l2 : list A) :
  StronglySorted R l1 -> StronglySorted R l2 ->
  (forall a b, In a l1 -> In b l2 -> R a b) ->
  StronglySorted R (l1 ++ l2).
Proof.
  intros H1 H2 H. induction H1 as [|a l1 Hs IH Ha]; [exact H2|].
  simpl. constructor.
  - apply IH. intros x y Hx Hy. apply H; [now right|exact Hy].
  - apply Forall_app. split; [exact Ha|].
    apply Forall_forall. intros y Hy. apply H; [now left|exact Hy].
Qed.

Lemma StronglySorted_app_inv {A : Type} (R : A -> A -> Prop)
      (l1 l2 : list A) :
  StronglySorted R (l1 ++ l2) ->
  StronglySorted R l1 /\ StronglySorted R l2 /\
  (forall a b, In a l1 -> In b l2 -> R a b).
Proof.
  induction l1 as [|x l1 IH]; simpl; intros H.
  - repeat split; [constructor|exact H|intros a b []].
  - inversion H as [|? ? Hs Hx]; subst.
    destruct (IH Hs) as (H1 & H2 & H12).
    apply Forall_app in Hx as [Hx1 Hx2].
    repeat split; [constructor; assumption|exact H2|].
    intros a b [<-|Ha] Hb; [|now apply H12].
    rewrite Forall_forall in Hx2. now apply Hx2.
Qed.

Lemma StronglySorted_rev {A : Type} (R : A -> A -> Prop) (l : list A) :
  StronglySorted (fun a b => R b a) l -> StronglySorted R (rev l).
Proof.
  induction 1 as [|a l Hs IH Ha]; [constructor|].
  simpl. apply StronglySorted_app; [exact IH|repeat constructor|].
  intros x y Hx [<-|[]]. apply in_rev in Hx.
  rewrite Forall_forall in Ha. now apply Ha.
Qed.

Lemma filter_rev {A : Type} (P : A -> bool) (l : list A) :
  filter P (rev l) = rev (filter P l).
Proof.
  induction l as [|a l IH]; [reflexivity|].
  simpl. rewrite filter_app, IH. simpl.
  destruct (P a); simpl; [reflexivity|now rewrite app_nil_r].
Qed.

Section EngineFacts.
Context {A : Type}.
Variable comparefn : A -> A -> option Z.

Local Abbreviation cmp := (SortCompare comparefn).

Lemma binary_insert_perm (pre : list A) (pivot : A) :
  Permutation (binary_insert comparefn pre pivot) (pivot :: pre).
Proof.
  unfold binary_insert.
  set (p := search_place _ _ _ _ _ _).
  rewrite <- (firstn_skipn p pre) at 3.
  symmetry. apply Permutation_middle.
Qed.

Lemma fold_binary_insert_perm (rest acc : list A) :
  Permutation (fold_left (binary_insert comparefn) rest acc) (acc ++ rest).
Proof.
  revert acc. induction rest as [|x rest IH]; intros acc; simpl.
  - now rewrite app_nil_r.
  - rewrite IH, binary_insert_perm. simpl. apply Permutation_middle.
Qed.

Lemma count_and_make_run_perm (l : list A) :
  Permutation (fst (count_and_make_run comparefn l)
               ++ snd (count_and_make_run comparefn l)) l.
Proof.
  unfold count_and_make_run. destruct l as [|a0 [|a1 r]]; simpl;
    try reflexivity.
  set (n := run_more _ _ _ _).
  change (a0 :: a1 :: firstn n r) with (firstn (S (S n)) (a0 :: a1 :: r)).
  change (skipn n r) with (skipn (S (S n)) (a0 :: a1 :: r)).
  rewrite <- (firstn_skipn (S (S n)) (a0 :: a1 :: r)) at 3.
  apply Permutation_app_tail.
  destruct (cmp a1 a0 <? 0)%Z; [|reflexivity].
  symmetry. apply Permutation_rev.
Qed.

(** Whatever the comparator, the sort of V8 loses and adds no element. *)
Lemma v8_sort_perm (l : list A) : Permutation (v8_sort comparefn l) l.
Proof.
  unfold v8_sort. pose proof (count_and_make_run_perm l) as H.
  destruct (count_and_make_run comparefn l) as [run rest]. simpl in H.
  now rewrite fold_binary_insert_perm.
Qed.

(** *** Where the comparator is consistent

    Consistency as ECMAScript has it: the results for [a, b] and for
    [b, a] have opposite signs, and the order is transitive. *)
Variable dom : A -> Prop.
Hypothesis anti :
  forall a b, dom a -> dom b -> ((cmp a b < 0)%Z <-> (0 < cmp b a)%Z).
Hypothesis trans :
  forall a b c, dom a -> dom b -> dom c ->
                before comparefn a b -> before comparefn b c ->
                before comparefn a c.

Lemma anti_total (a b : A) :
  dom a -> dom b -> (0 < cmp a b)%Z -> before comparefn b a.
Proof.
  intros Da Db H. apply (anti b a Db Da) in H. unfold before. lia.
Qed.

Lemma not_lt_before (a b : A) :
  dom a -> dom b -> ~ (cmp a b < 0)%Z -> before comparefn b a.
Proof.
  intros Da Db H. unfold before.
  destruct (Z.ltb_spec 0 (cmp b a)) as [Hp|Hp]; [|exact Hp].
  apply (anti a b Da Db) in Hp. contradiction.
Qed.

Lemma lt_not_before (a b : A) :
  dom a -> dom b -> (cmp a b < 0)%Z -> ~ before comparefn b a.
Proof.
  intros Da Db H. apply (anti a b Da Db) in H. unfold before. lia.
Qed.

Lemma lt_before (a b : A) : (cmp a b < 0)%Z -> before comparefn a b.
Proof. unfold before. lia. Qed.

Lemma lt_before_trans (a b c : A) :
  dom a -> dom b -> dom c ->
  (cmp a b < 0)%Z -> before comparefn b c -> (cmp a c < 0)%Z.
Proof.
  intros Da Db Dc Hab Hbc.
  destruct (Z.ltb_spec (cmp a c) 0) as [H|H]; [exact H|exfalso].
  assert (Hca : before comparefn c a).
  { apply not_lt_before; auto. lia. }
  apply (lt_not_before a b Da Db Hab). now apply (trans b c a).
Qed.

Lemma before_lt_trans (a b c : A) :
  dom a -> dom b -> dom c ->
  before comparefn a b -> (cmp b c < 0)%Z -> (cmp a c < 0)%Z.
Proof.
  intros Da Db Dc Hab Hbc.
  destruct (Z.ltb_spec (cmp a c) 0) as [H|H]; [exact H|exfalso].
  assert (Hca : before comparefn c a).
  { apply not_lt_before; auto. lia. }
  apply (lt_not_before b c Db Dc Hbc). now apply (trans c a b).
Qed.

Lemma filter_none {B : Type} (P : B -> bool) (l : list B) :
  (forall b, In b l -> P b = false) -> filter P l = [].
Proof.
  induction l as [|b l IH]; intros H; [reflexivity|]. simpl.
  rewrite (H b (or_introl eq_refl)). apply IH. intros c Hc. apply H.
  now right.
Qed.

Lemma split_at (pre : list A) (mid : nat) (m : A) :
  nth_error pre mid = Some m ->
  (firstn mid pre ++ m :: skipn (S mid) pre)%list = pre /\
  firstn (S mid) pre = (firstn mid pre ++ [m])%list /\
  skipn mid pre = m :: skipn (S mid) pre.
Proof.
  revert mid. induction pre as [|a pre IH]; intros [|mid] H;
    try discriminate.
  - injection H as ->. auto.
  - simpl in H. destruct (IH mid H) as (H1 & H2 & H3).
    change (skipn (S mid) (a :: pre)) with (skipn mid pre).
    change (skipn (S (S mid)) (a :: pre)) with (skipn (S mid) pre).
    change (firstn (S (S mid)) (a :: pre))
      with (a :: firstn (S mid) pre).
    change (firstn (S mid) (a :: pre)) with (a :: firstn mid pre).
    rewrite H2, H3. repeat split. simpl. f_equal.
    rewrite <- H1 at 3. reflexivity.
Qed.

(** The binary search finds the place behind every element that may stand
    before the pivot and before every element the pivot is less than. *)
Lemma search_place_spec (fuel : nat) (pivot : A) (pre : list A)
      (left right : nat) :
  dom pivot -> Forall dom pre -> StronglySorted (before comparefn) pre ->
  (left <= right <= length pre)%nat -> (right - left < fuel)%nat ->
  Forall (fun m => before comparefn m pivot) (firstn left pre) ->
  Forall (fun m => (cmp pivot m < 0)%Z) (skipn right pre) ->
  Forall (fun m => before comparefn m pivot)
         (firstn (search_place comparefn fuel pivot pre left right) pre) /\
  Forall (fun m => (cmp pivot m < 0)%Z)
         (skipn (search_place comparefn fuel pivot pre left right) pre).
Proof.
  intros Dp Dpre Hs. revert left right.
  induction fuel as [|fuel IH]; intros left right Hb Hf Hl Hr; [lia|].
  simpl. destruct (Nat.ltb_spec left right) as [Hlt|Hge].
  - set (mid := (left + Nat.div2 (right - left))%nat).
    assert (Hmid : (left <= mid < right)%nat).
    { unfold mid.
      assert (H : (Nat.div2 (right - left) < right - left)%nat)
        by (apply Nat.lt_div2; lia).
      revert H. generalize (Nat.div2 (right - left)). intros. lia. }
    destruct (nth_error pre mid) as [m|] eqn:Em;
      [|apply nth_error_None in Em; lia].
    destruct (split_at pre mid m Em) as (Hsplit & Hfirst & Hskip).
    assert (Dm : dom m).
    { rewrite Forall_forall in Dpre. apply Dpre.
      apply (nth_error_In _ _ Em). }
    rewrite <- Hsplit in Hs.
    apply StronglySorted_app_inv in Hs as (_ & Hs2 & Hcross).
    inversion Hs2 as [|? ? _ Hm2]; subst.
    destruct (Z.ltb_spec (cmp pivot m) 0) as [Hc|Hc].
    + apply IH; [lia|lia|exact Hl|].
      rewrite Hskip. constructor; [exact Hc|].
      rewrite Forall_forall in *. intros b Hb'.
      apply (lt_before_trans pivot m b); auto.
      apply Dpre. rewrite <- Hsplit. apply in_or_app. right. now right.
    + apply IH; [lia|lia| |exact Hr].
      rewrite Hfirst. apply Forall_app. split.
      * rewrite Forall_forall in *. intros a Ha.
        apply (trans a m pivot); auto.
        -- apply Dpre. rewrite <- Hsplit. apply in_or_app. now left.
        -- apply Hcross; [exact Ha|now left].
        -- apply not_lt_before; auto. lia.
      * constructor; [|constructor]. apply not_lt_before; auto. lia.
  - assert (left = right) by lia. subst. auto.
Qed.

Lemma binary_insert_spec (pre : list A) (pivot : A) :
  dom pivot -> Forall dom pre -> StronglySorted (before comparefn) pre ->
  StronglySorted (before comparefn) (binary_insert comparefn pre pivot) /\
  (forall x, dom x ->
             filter (tie comparefn x) (binary_insert comparefn pre pivot)
             = filter (tie comparefn x) (pre ++ [pivot])%list).
Proof.
  intros Dp Dpre Hs. unfold binary_insert.
  assert (H0 : Forall (fun m => before comparefn m pivot) (firstn 0 pre))
    by constructor.
  assert (H1 : Forall (fun m => (cmp pivot m < 0)%Z)
                      (skipn (length pre) pre))
    by (rewrite skipn_all; constructor).
  destruct (search_place_spec (S (length pre)) pivot pre 0 (length pre)
              Dp Dpre Hs ltac:(lia) ltac:(lia) H0 H1) as [Hlow Hhigh].
  clear H0 H1.
  set (p := search_place _ _ _ _ _ _) in *.
  pose proof (firstn_skipn p pre) as Hpre.
  assert (Hs' := Hs). rewrite <- Hpre in Hs'.
  apply StronglySorted_app_inv in Hs' as (Hs1 & Hs2 & Hcross).
  assert (Dfirst : forall a, In a (firstn p pre) -> dom a).
  { intros a Ha. rewrite Forall_forall in Dpre. apply Dpre.
    rewrite <- Hpre. apply in_or_app. now left. }
  assert (Dskip : forall a, In a (skipn p pre) -> dom a).
  { intros a Ha. rewrite Forall_forall in Dpre. apply Dpre.
    rewrite <- Hpre. apply in_or_app. now right. }
  rewrite Forall_forall in Hlow, Hhigh.
  split.
  - apply StronglySorted_app; [exact Hs1| |].
    + constructor; [exact Hs2|].
      apply Forall_forall. intros b Hb. apply lt_before. now apply Hhigh.
    + intros a b Ha [<-|Hb]; [now apply Hlow|now apply Hcross].
  - intros x Dx.
    replace (pre ++ [pivot])%list
      with ((firstn p pre ++ skipn p pre) ++ [pivot])%list
      by now rewrite Hpre.
    rewrite !filter_app. simpl.
    destruct (tie comparefn x pivot) eqn:T.
    + rewrite (filter_none _ (skipn p pre)); [now rewrite app_nil_r|].
      intros b Hb. destruct (tie comparefn x b) eqn:Tb; [exfalso|reflexivity].
      apply tie_before in T as [Hxp _]. apply tie_before in Tb as [_ Hbx].
      apply (lt_not_before pivot b); auto.
      apply (trans b x pivot); auto.
    + now rewrite app_nil_r.
Qed.

Lemma fold_binary_insert_spec (rest acc base : list A) :
  Forall dom rest -> Forall dom acc ->
  StronglySorted (before comparefn) acc ->
  (forall x, dom x ->
             filter (tie comparefn x) acc = filter (tie comparefn x) base) ->
  StronglySorted (before comparefn)
                 (fold_left (binary_insert comparefn) rest acc) /\
  (forall x, dom x ->
             filter (tie comparefn x)
                    (fold_left (binary_insert comparefn) rest acc)
             = filter (tie comparefn x) (base ++ rest)%list).
Proof.
  revert acc base. induction rest as [|a rest IH];
    intros acc base Dr Da Hs Hst; simpl.
  - split; [exact Hs|]. intros x Dx. rewrite app_nil_r. now apply Hst.
  - inversion Dr as [|? ? Dx Dr']; subst.
    destruct (binary_insert_spec acc a Dx Da Hs) as [Hs' Hst'].
    destruct (IH (binary_insert comparefn acc a) (base ++ [a])%list)
      as [H1 H2]; auto.
    + apply (Permutation_Forall
               (Permutation_sym (binary_insert_perm acc a))).
      now constructor.
    + intros x Hx. rewrite (Hst' x Hx), !filter_app, (Hst x Hx). reflexivity.
    + split; [exact H1|]. intros x Hx. rewrite (H2 x Hx), <- app_assoc.
      reflexivity.
Qed.

(** The elements of a strictly descending run tie with no one twice. *)
Lemma descending_one_tie (x : A) (l : list A) :
  dom x -> Forall dom l ->
  StronglySorted (fun a b => (cmp b a < 0)%Z) l ->
  (length (filter (tie comparefn x) l) <= 1)%nat.
Proof.
  intros Dx Dl Hs. induction Hs as [|a l Hs IH Ha]; [simpl; lia|].
  inversion Dl as [|? ? Da Dl']; subst. simpl.
  destruct (tie comparefn x a) eqn:T; [|now apply IH].
  rewrite (filter_none _ l); [simpl; lia|].
  intros b Hb. destruct (tie comparefn x b) eqn:Tb; [exfalso|reflexivity].
  rewrite Forall_forall in Ha, Dl'.
  apply tie_before in T as [_ Hax]. apply tie_before in Tb as [Hxb _].
  specialize (Ha b Hb).
  apply (lt_not_before b a); auto.
  apply (trans a x b); auto.
Qed.

Lemma firstn_In {B : Type} (n : nat) (l : list B) (x : B) :
  In x (firstn n l) -> In x l.
Proof.
  intros H. rewrite <- (firstn_skipn n l). apply in_or_app. now left.
Qed.

Lemma rev_short {B : Type} (l : list B) : (length l <= 1)%nat -> rev l = l.
Proof. destruct l as [|a [|b l]]; simpl; intros H; try reflexivity; lia. Qed.

Lemma run_ascending (prev : A) (l : list A) :
  dom prev -> Forall dom l ->
  StronglySorted (before comparefn)
                 (prev :: firstn (run_more comparefn false prev l) l).
Proof.
  revert prev. induction l as [|x r IH]; intros prev Dp Dl.
  - repeat constructor.
  - inversion Dl as [|? ? Dx Dr]; subst. cbn [run_more].
    destruct (Z.ltb_spec (cmp x prev) 0) as [H|H].
    + repeat constructor.
    + specialize (IH x Dx Dr). cbn [firstn].
      assert (Hpx : before comparefn prev x)
        by (apply not_lt_before; auto; lia).
      constructor; [exact IH|].
      inversion IH as [|? ? _ Hx]; subst.
      constructor; [exact Hpx|].
      rewrite Forall_forall in *. intros y Hy.
      apply (trans prev x y); auto.
      apply Dr. eapply firstn_In. exact Hy.
Qed.

Lemma run_descending (prev : A) (l : list A) :
  dom prev -> Forall dom l ->
  StronglySorted (fun a b => (cmp b a < 0)%Z)
                 (prev :: firstn (run_more comparefn true prev l) l).
Proof.
  revert prev. induction l as [|x r IH]; intros prev Dp Dl.
  - repeat constructor.
  - inversion Dl as [|? ? Dx Dr]; subst. cbn [run_more].
    destruct (Z.leb_spec 0 (cmp x prev)) as [H|H].
    + repeat constructor.
    + specialize (IH x Dx Dr). cbn [firstn].
      constructor; [exact IH|].
      inversion IH as [|? ? _ Hx]; subst.
      constructor; [exact H|].
      rewrite Forall_forall in *. intros y Hy.
      assert (Dy : dom y) by (apply Dr; eapply firstn_In; exact Hy).
      apply (lt_before_trans y x prev); auto.
      now apply lt_before.
Qed.

(** CountAndMakeRun cuts the list in two; the first part comes back sorted,
    each class of ties in it in the order of the list. *)
Lemma count_and_make_run_spec (l : list A) :
  Forall dom l ->
  exists base,
    (base ++ snd (count_and_make_run comparefn l))%list = l /\
    StronglySorted (before comparefn) (fst (count_and_make_run comparefn l)) /\
    Permutation (fst (count_and_make_run comparefn l)) base /\
    (forall x, dom x ->
               filter (tie comparefn x) (fst (count_and_make_run comparefn l))
               = filter (tie comparefn x) base).
Proof.
  intros Dl. destruct l as [|a0 [|a1 r]].
  - exists []. simpl. repeat split; auto. constructor.
  - exists [a0]. simpl. repeat split; auto. repeat constructor.
  - unfold count_and_make_run.
    set (descending := (cmp a1 a0 <? 0)%Z).
    assert (Hn : S (run_more comparefn descending a1 r)
                 = run_more comparefn descending a0 (a1 :: r)).
    { cbn [run_more]. unfold descending.
      destruct (Z.ltb_spec (cmp a1 a0) 0) as [H|H].
      - destruct (Z.leb_spec 0 (cmp a1 a0)); [lia|reflexivity].
      - destruct (Z.ltb_spec (cmp a1 a0) 0); [lia|reflexivity]. }
    cbv zeta. rewrite Hn.
    set (k := run_more comparefn descending a0 (a1 :: r)).
    exists (firstn (S k) (a0 :: a1 :: r)). cbn [fst snd].
    inversion Dl as [|? ? D0 D1]; subst.
    split; [apply firstn_skipn|].
    destruct descending eqn:E.
    + pose proof (run_descending a0 (a1 :: r) D0 D1) as Hd.
      fold k in Hd. change (a0 :: firstn k (a1 :: r))
        with (firstn (S k) (a0 :: a1 :: r)) in Hd.
      split; [|split].
      * apply (StronglySorted_impl (fun a b => (cmp a b < 0)%Z)).
        -- intros a b. apply lt_before.
        -- apply StronglySorted_rev. exact Hd.
      * apply Permutation_sym, Permutation_rev.
      * intros x Dx. rewrite filter_rev. apply rev_short.
        apply descending_one_tie; auto.
        rewrite Forall_forall in *. intros y Hy. apply Dl.
        eapply firstn_In. exact Hy.
    + pose proof (run_ascending a0 (a1 :: r) D0 D1) as Ha.
      fold k in Ha. split; [exact Ha|]. split; [reflexivity|]. reflexivity.
Qed.

(** Where the comparator is consistent, the sort of V8 returns what
    [sort_by] returns. *)
Lemma v8_sort_canonical (l : list A) :
  Forall dom l -> v8_sort comparefn l = sort_by comparefn l.
Proof.
  intros Dl. unfold v8_sort.
  destruct (count_and_make_run_spec l Dl) as (base & Hl & Hs & Hp & Hst).
  destruct (count_and_make_run comparefn l) as [run rest].
  cbn [fst snd] in *.
  assert (Dbr : Forall dom base /\ Forall dom rest).
  { apply Forall_app. now rewrite Hl. }
  destruct Dbr as [Db Dr].
  assert (Drun : Forall dom run).
  { apply (Permutation_Forall (Permutation_sym Hp)). exact Db. }
  destruct (fold_binary_insert_spec rest run base Dr Drun Hs Hst)
    as [H1 H2].
  apply (sort_by_canonical comparefn dom anti_total trans); auto.
  - apply (Permutation_Forall
             (Permutation_sym (fold_binary_insert_perm rest run))).
    apply Forall_app. split; [exact Drun|exact Dr].
  - intros x Dx. rewrite (H2 x Dx), Hl. reflexivity.
Qed.

End EngineFacts.

(** [sort_by] and the sort of V8 both conform. *)
Lemma sort_by_conforming : conforming (@sort_by).
Proof.
  split.
  - intros A c l. apply sort_by_perm.
  - intros A c dom l [Hanti Htrans] Dl.
    assert (Htot : forall a b, dom a -> dom b ->
                               (0 < SortCompare c a b)%Z -> before c b a).
    { intros a b. apply (anti_total c dom Hanti). }
    split; [now apply (sort_by_sorted c dom Htot Htrans)|].
    intros x Dx. apply sort_by_filter. intros a b Ha Hb Ta Tb.
    rewrite Forall_forall in Dl.
    apply tie_before in Ta as [_ Hax]. apply tie_before in Tb as [Hxb _].
    apply (Htrans a x b); auto.
Qed.

Lemma v8_sort_conforming : conforming (@v8_sort).
Proof.
  split.
  - intros A c l. apply v8_sort_perm.
  - intros A c dom l [Hanti Htrans] Dl.
    rewrite (v8_sort_canonical c dom Hanti Htrans l Dl).
    apply (proj2 sort_by_conforming A c dom l); [now split|exact Dl].
Qed.

(** Where the comparator is consistent, every conforming sort returns what
    [sort_by] returns. *)
Lemma conforming_canonical (srt : Sorter) {A : Type}
      (comparefn : A -> A -> option Z) (dom : A -> Prop) (l : list A) :
  conforming srt -> consistent_on comparefn dom -> Forall dom l ->
  srt A comparefn l = sort_by comparefn l.
Proof.
  intros [Hp Hc] Hcons Dl.
  destruct (Hc A comparefn dom l Hcons Dl) as [Hs Hst].
  destruct Hcons as [Hanti Htrans].
  apply (sort_by_canonical comparefn dom); auto.
  - intros a b. apply (anti_total comparefn dom Hanti).
  - apply (Permutation_Forall (Permutation_sym (Hp A comparefn l))).
    exact Dl.
Qed.

Lemma all_related_sorted {A : Type} (R : A -> A -> Prop) (l : list A) :
  (forall a b, In a l -> In b l -> R a b) -> StronglySorted R l.
Proof.
  induction l as [|x l IH]; intros H; constructor.
  - apply IH. intros a b Ha Hb. apply H; now right.
  - apply Forall_forall. intros b Hb. apply H; [now left|now right].
Qed.

(* ------------------------------------------------------------------------- *)
(** ** Grouping, whatever the engine *)

Section EngineGrouping.
Context {host : Host}.

(** The model of [groupByCategory] is the grouping with [sort_by]. *)
Lemma groupWith_sort_by (l : list FileObject) :
  groupWith (@sort_by) l = groupByCategory l.
Proof. reflexivity. Qed.

Lemma groupWith_eq (srt : Sorter) (l : list FileObject) :
  conforming srt ->
  groupWith srt l =
  srt _ by_name
      (List.map (fun k => (k, srt _ newest_first (bucket k l)))
                (categories l)).
Proof.
  intros [Hp _]. unfold groupWith. rewrite collected, map_map. simpl.
  apply Map_from_distinct. unfold map_keys.
  apply (Permutation_NoDup
           (Permutation_sym (Permutation_map fst (Hp _ by_name _)))).
  rewrite map_map. simpl. rewrite map_id. apply categories_NoDup.
Qed.

Lemma groupWith_in (srt : Sorter) (l : list FileObject) (k : string)
      (es : list FileObject) :
  conforming srt -> In (k, es) (groupWith srt l) ->
  In k (categories l) /\ es = srt _ newest_first (bucket k l).
Proof.
  intros Hc H. rewrite (groupWith_eq srt l Hc) in H.
  apply (Permutation_in _ (proj1 Hc _ by_name _)) in H.
  apply in_map_iff in H as [k' [E Hk]]. inversion E; subst. auto.
Qed.

Lemma groupWith_has (srt : Sorter) (l : list FileObject) (k : string) :
  conforming srt -> In k (categories l) ->
  In (k, srt _ newest_first (bucket k l)) (groupWith srt l).
Proof.
  intros Hc Hk. rewrite (groupWith_eq srt l Hc).
  apply (Permutation_in _ (Permutation_sym (proj1 Hc _ by_name _))).
  apply in_map_iff. now exists k.
Qed.

Lemma groupWith_keys (srt : Sorter) (l : list FileObject) :
  conforming srt -> Permutation (map_keys (groupWith srt l)) (categories l).
Proof.
  intros Hc. rewrite (groupWith_eq srt l Hc). unfold map_keys.
  rewrite (Permutation_map fst (proj1 Hc _ by_name _)).
  rewrite map_map. simpl. now rewrite map_id.
Qed.

Lemma groupWith_lookup (srt : Sorter) (l : list FileObject) (k : string) :
  conforming srt -> In k (List.map category l) ->
  map_get k (groupWith srt l) = Some (srt _ newest_first (bucket k l)).
Proof.
  intros Hc Hk. apply map_get_in.
  - apply (Permutation_NoDup (Permutation_sym (groupWith_keys srt l Hc))).
    apply categories_NoDup.
  - apply groupWith_has; [exact Hc|]. now apply categories_In.
Qed.

(** The comparator of the inner sort is consistent on the records whose
    dates parse, and the results for [a, b] and [b, a] have opposite signs
    on all records. *)
Lemma newest_first_consistent : consistent_on newest_first parses.
Proof.
  split.
  - intros a b Ha Hb. unfold parses, SortCompare, newest_first, num_sub in *.
    destruct (dateValue (updated a)), (dateValue (updated b)); lia.
  - intros a b c. apply newest_first_trans.
Qed.

Lemma newest_first_anti (a b : FileObject) :
  (SortCompare newest_first a b < 0)%Z
  <-> (0 < SortCompare newest_first b a)%Z.
Proof.
  unfold SortCompare, newest_first, num_sub.
  destruct (dateValue (updated a)), (dateValue (updated b)); lia.
Qed.

Lemma permuted_bucket_parses (srt : Sorter) (k : string)
      (l : list FileObject) :
  conforming srt ->
  Forall parses (srt _ newest_first (bucket k l)) ->
  Forall parses (bucket k l).
Proof.
  intros Hc. apply (Permutation_Forall (proj1 Hc _ newest_first _)).
Qed.

Lemma has_key_before (t : option Z) (a b : FileObject) :
  has_key t a = true -> has_key t b = true -> before newest_first a b.
Proof.
  unfold before, SortCompare, newest_first, num_sub, has_key.
  destruct t, (dateValue (updated a)), (dateValue (updated b));
    try discriminate; lia.
Qed.

(** C6, amended.  On every engine whose sort conforms, the inner sort is
    stable on ties where the dates parse: in a bucket whose dates all
    parse, the records of one date stand in the order they have in the
    input.  ([groupByCategory] is [groupWith] with [sort_by].) *)
Theorem group_stable (srt : Sorter) (l : list FileObject) (k : string)
        (es : list FileObject) (t : option Z) :
  conforming srt ->
  In (k, es) (groupWith srt l) ->
  Forall parses es ->
  filter (has_key t) es = filter (has_key t) (bucket k l).
Proof.
  intros Hc Hin Hp. destruct (groupWith_in srt l k es Hc Hin) as [_ ->].
  apply (permuted_bucket_parses srt k l Hc) in Hp.
  rewrite (conforming_canonical srt newest_first parses _ Hc
                                newest_first_consistent Hp).
  apply sort_by_filter. intros a b _ _. apply has_key_before.
Qed.

(** X8.  Looking a category up in the grouping gives, on every engine
    whose sort conforms, the records of that category when the input has
    such a record, and nothing otherwise; when the dates of these records
    all parse they come newest first, those of one date in the order of
    the input. *)
Theorem group_lookup (srt : Sorter) (l : list FileObject) (k : string) :
  conforming srt ->
  (In k (List.map category l) ->
   exists es,
     map_get k (groupWith srt l) = Some es /\
     Permutation es (bucket k l) /\
     (Forall parses (bucket k l) ->
      newest_to_oldest es /\
      forall t, filter (has_key t) es = filter (has_key t) (bucket k l))) /\
  (~ In k (List.map category l) -> map_get k (groupWith srt l) = None).
Proof.
  intros Hc. split; intros H.
  - exists (srt _ newest_first (bucket k l)).
    split; [now apply groupWith_lookup|].
    split; [apply (proj1 Hc)|]. intros Hp.
    rewrite (conforming_canonical srt newest_first parses _ Hc
                                  newest_first_consistent Hp).
    split.
    + unfold newest_to_oldest.
      eapply StronglySorted_impl; [intros a b; apply before_newest_first|].
      now apply (sort_by_sorted newest_first parses newest_first_total
                                newest_first_trans).
    + intros t. apply sort_by_filter. intros a b _ _. apply has_key_before.
  - apply map_get_none. intros Hin. apply H, categories_In.
    apply (Permutation_in _ (groupWith_keys srt l Hc)). exact Hin.
Qed.

End EngineGrouping.

(* ------------------------------------------------------------------------- *)
(** ** Dates that do not parse *)

Lemma substring_tail (p b : string) : substring b (p ++ b).
Proof. apply substring_app_r, substring_refl. Qed.

Section MalformedDates.
Context {host : Host}.

Ltac find_end :=
  first [apply substring_refl | apply substring_app_r; find_end].

(** The [time] element of a card holds what [formatDate] returns. *)
Lemma renderCard_time (f : FileObject) :
  substring ("          " ++ formatDate (updated f) ++ nl ++ "        </time>")
            (renderCard f).
Proof.
  apply (substring_trans _ ("          " ++ formatDate (updated f) ++ nl
                            ++ "        </time>" ++ nl ++ "      </a>")).
  - exists EmptyString, (nl ++ "      </a>"). simpl.
    now rewrite !append_assoc.
  - unfold renderCard.
    generalize (formatDate (updated f)) as shown_date.
    generalize (escHtml (file f)) (escHtml (title f))
               (escHtml (description f)) (escHtml (updated f)).
    intros e1 e2 e3 e4 shown_date. unfold q. rewrite !append_assoc.
    find_end.
Qed.

Lemma group_nonempty (l : list FileObject) (f : FileObject) :
  In f l -> (length (groupByCategory l) =? 0)%nat = false.
Proof.
  intros Hf. destruct (groupByCategory l) eqn:E; [|reflexivity].
  apply group_empty_iff in E. subst. destruct Hf.
Qed.

Lemma page_html_shows (l : list FileObject) (f : FileObject) :
  In f l -> substring (renderCard f) (page_html l).
Proof.
  intros Hf. unfold page_html. rewrite (group_nonempty l f Hf).
  apply substring_fold. right.
  exists (category f, sort_by newest_first (bucket (category f) l)).
  split.
  - apply group_has, categories_In. now apply in_map.
  - simpl. apply renderCategory_cards.
    apply (Permutation_in _ (Permutation_sym (sort_by_perm _ _))).
    apply filter_In. split; [exact Hf|apply String.eqb_refl].
Qed.

(** C5, amended.  With a host container, rendering a list that has a
    record [f] whose [updated] does not parse returns, and the page holds
    the card of [f]; when [updated] followed by [T00:00:00], the text that
    [formatDate] parses, does not parse either, that card shows
    [Invalid Date].  The comparator returns NaN for [f] and any record, so
    [f] ties with every record; between two records of different dates it
    makes the comparator inconsistent (the older may stand before [f], and
    [f] before the newer), and then the place of [f] is the engine's own.
    Where all records of the category of [f] tie, every conforming sort
    leaves them in the order of the input. *)
Theorem malformed_date_policy (l : list FileObject) (d : Document)
        (old : string) (f : FileObject) :
  app d = Some old -> In f l -> dateValue (updated f) = None ->
  (exists html,
      renderAll l d = Some (mkDocument (Some html) (S (frames d))) /\
      includes html (renderCard f) = true /\
      (Date_parse (updated f ++ "T00:00:00") = None ->
       includes html ("          " ++ "Invalid Date" ++ nl ++ "        </time>")
       = true)) /\
  (forall g, SortCompare newest_first f g = 0%Z /\
             SortCompare newest_first g f = 0%Z) /\
  (forall a b, parses a -> parses b -> ~ not_older a b ->
               before newest_first a f /\ before newest_first f b /\
               ~ before newest_first a b) /\
  (forall srt, conforming srt ->
               (forall a b, In a (bucket (category f) l) ->
                            In b (bucket (category f) l) ->
                            tie newest_first a b = true) ->
               map_get (category f) (groupWith srt l)
               = Some (bucket (category f) l)).
Proof.
  intros Ha Hf Hd. split; [|split; [|split]].
  - exists (page_html l). rewrite (renderAll_page l d old Ha).
    rewrite (group_nonempty l f Hf).
    split; [reflexivity|]. split.
    + apply includes_iff. now apply page_html_shows.
    + intros Hfmt. apply includes_iff.
      apply (substring_trans _ (renderCard f)); [|now apply page_html_shows].
      pose proof (renderCard_time f) as Ht. unfold formatDate in Ht.
      rewrite Hfmt in Ht. exact Ht.
  - intros g. unfold SortCompare, newest_first, num_sub. rewrite Hd.
    destruct (dateValue (updated g)); split; reflexivity.
  - intros a b Pa Pb Hab.
    unfold parses, not_older, before, SortCompare, newest_first, num_sub in *.
    rewrite Hd.
    destruct (dateValue (updated a)), (dateValue (updated b));
      try contradiction; lia.
  - intros srt Hc Hties.
    rewrite (groupWith_lookup srt l (category f) Hc (in_map category l f Hf)).
    f_equal.
    rewrite (conforming_canonical srt newest_first
               (fun a => In a (bucket (category f) l)) _ Hc).
    + apply sort_by_sorted_id, all_related_sorted.
      intros a b Ha' Hb'. now apply (tie_before newest_first a b), Hties.
    + split; [intros a b _ _; apply newest_first_anti|].
      intros a b c Ia _ Ic _ _.
      now apply (tie_before newest_first a c), Hties.
    + apply Forall_forall. auto.
Qed.

End MalformedDates.

(* ------------------------------------------------------------------------- *)
(** ** No section without a card *)


Section Sections.
Context {host : Host}.


End Sections.

(* ------------------------------------------------------------------------- *)
(** ** The document follows the renders *)

Section Linked.
Context {host : Host}.
Variable files : list FileObject.

Lemma linked_on_timeout (f0 : nat) (t : Z) (p : Page) :
  linked files f0 p -> linked files f0 (on_timeout files t p).
Proof.
  intros [Ha Hf]. unfold on_timeout.
  destruct (input p) as [v|]; [|now split].
  rewrite (renderAll_page _ _ _ Ha). unfold linked, repaints in *.
  cbn [doc renders app frames shown snd filter].
  split; [reflexivity|].
  destruct (filterFiles files (trim v)) as [|g r] eqn:E.
  - exact Hf.
  - rewrite (group_nonempty (g :: r) g (or_introl eq_refl)).
    cbn [length]. rewrite Hf. lia.
Qed.

Lemma linked_fire (f0 : nat) (p : Page) (e : nat * Z) :
  linked files f0 p -> linked files f0 (fire files p e).
Proof. intros H. unfold fire. apply linked_on_timeout. exact H. Qed.

Lemma linked_advance (f0 : nat) (t : Z) (p : Page) :
  linked files f0 p -> linked files f0 (advance files t p).
Proof.
  intros H. unfold advance.
  generalize (filter (fun e => (snd e <=? t)%Z) (timers p)) as due.
  intros due.
  assert (Hd : linked files f0 (fold_left (fire files) due p)).
  { revert p H. induction due as [|e due IH]; intros p H; [exact H|].
    simpl. apply IH. now apply linked_fire. }
  exact Hd.
Qed.

Lemma linked_step (f0 : nat) (p : Page) (e : Event) :
  linked files f0 p -> linked files f0 (step files p e).
Proof.
  intros H. apply (linked_advance f0 (event_time e)) in H. unfold step.
  destruct e; cbn [event_time] in *; [|exact H].
  destruct (listening _); exact H.
Qed.

Lemma linked_run (f0 : nat) (es : list Event) (p : Page) :
  linked files f0 p -> linked files f0 (run files es p).
Proof.
  revert p. induction es as [|e es IH]; intros p H; [exact H|].
  simpl. apply IH. now apply linked_step.
Qed.

Lemma linked_init (d : Document) (box : option string) (p0 : Page) :
  init files (loaded d box) = Some p0 -> linked files (frames (doc p0)) p0.
Proof.
  intros Hinit.
  destruct (init_started files d box p0 Hinit) as (Ha & _ & _ & Hr & _).
  unfold linked, repaints, shown. rewrite Hr, Ha. simpl.
  split; [reflexivity|lia].
Qed.

(** C9.  On a page that has started with a search box, for events in the
    order of their times: at most one timeout is pending at any time (an
    [input] event cancels the one before); two renders are a debounce delay
    apart or more; a render uses the value the box has when the timeout
    fires; there are no more renders than [input] events; the host
    container holds the catalog filtered by the trimmed value of the newest
    render (the whole catalog while there is none), and one animation frame
    is asked for per render that has a record to show; and [input] events
    at 0, 50 and 100 ms give one render, at 250 ms, with the value typed at
    100 ms, which leaves the catalog filtered by that value in the
    container. *)
Theorem debounce_renders (d : Document) (v0 : string) (p0 : Page)
        (es : list Event) (T : Z) :
  init files (loaded d (Some v0)) = Some p0 ->
  StronglySorted Z.le (0%Z :: List.map event_time es) ->
  (length (timers (run files es p0)) <= 1)%nat /\
  StronglySorted spaced (renders (advance files T (run files es p0))) /\
  (forall t v, In (t, v) (renders (advance files T (run files es p0))) ->
               v = value_at es v0 t) /\
  (length (renders (advance files T (run files es p0)))
   <= length (filter is_typed es))%nat /\
  app (doc (advance files T (run files es p0)))
  = Some (shown files (renders (advance files T (run files es p0)))) /\
  frames (doc (advance files T (run files es p0)))
  = (frames (doc p0)
     + repaints files (renders (advance files T (run files es p0))))%nat /\
  (forall a b c,
      renders (advance files T
                 (run files [Typed 0 a; Typed 50 b; Typed 100 c] p0))
      = (if (250 <=? T)%Z then [(250%Z, c)] else []) /\
      app (doc (advance files T
                  (run files [Typed 0 a; Typed 50 b; Typed 100 c] p0)))
      = Some (if (250 <=? T)%Z
              then page_html (filterFiles files (trim c))
              else page_html files)).
Proof.
  intros Hinit Hs.
  destruct (good_run files d v0 p0 es Hinit Hs) as (c & HG & _).
  pose proof (good_advance files es v0 c T _ HG) as HA.
  pose proof (linked_init d (Some v0) p0 Hinit) as HL.
  destruct (linked_advance _ T _ (linked_run _ es _ HL)) as [Hdoc Hfr].
  destruct HG as (_ & _ & _ & _ & Ht & _).
  destruct HA as (_ & _ & _ & _ & _ & Hr & Hsp & Hn).
  split; [|split; [exact Hsp|split; [|split; [|split; [exact Hdoc|split;
    [exact Hfr|]]]]]].
  - destruct Ht as [->|(id & due & -> & _)]; simpl; lia.
  - intros t v Hin. apply (Hr (t, v) Hin).
  - lia.
  - intros a b c'.
    assert (Hlog : renders (advance files T
                     (run files [Typed 0 a; Typed 50 b; Typed 100 c'] p0))
                   = (if (250 <=? T)%Z then [(250%Z, c')] else [])).
    { clear - Hinit. unfold init, loaded in Hinit. simpl in Hinit.
      destruct (renderAll files d) as [d'|]; [|discriminate].
      inversion Hinit; subst p0. unfold initSearch. simpl.
      destruct (250 <=? T)%Z; reflexivity. }
    split; [exact Hlog|].
    destruct (linked_advance _ T _
                (linked_run _ [Typed 0 a; Typed 50 b; Typed 100 c'] _ HL))
      as [Hdoc' _].
    rewrite Hdoc', Hlog. destruct (250 <=? T)%Z; reflexivity.
Qed.

(** X18.  The debounce swallows no keystroke that stands alone: when the
    [input] events are a debounce delay apart or more, each of them leads
    to a render of its own, a debounce delay after it, with its value; and
    the host container then holds what the last of these renders wrote,
    one animation frame being asked for per render that had a record to
    show. *)
Theorem slow_typing_renders_all (d : Document) (v0 : string) (p0 : Page)
        (es : list Event) (T : Z) :
  init files (loaded d (Some v0)) = Some p0 ->
  Forall (fun e => (0 <= event_time e)%Z /\ is_typed e = true) es ->
  StronglySorted (fun a b => (a + debounce_delay <= b)%Z)
                 (List.map event_time es) ->
  Forall (fun e => (event_time e + debounce_delay <= T)%Z) es ->
  renders (advance files T (run files es p0)) = rev (List.map render_of es) /\
  timers (advance files T (run files es p0)) = [] /\
  app (doc (advance files T (run files es p0)))
  = Some (shown files (rev (List.map render_of es))) /\
  frames (doc (advance files T (run files es p0)))
  = (frames (doc p0) + repaints files (rev (List.map render_of es)))%nat.
Proof.
  intros Hinit Hall Hgap HT.
  assert (Hlog : renders (advance files T (run files es p0))
                 = rev (List.map render_of es) /\
                 timers (advance files T (run files es p0)) = []).
  { revert T Hall Hgap HT.
    induction es as [|e es IH] using rev_ind; intros T Hall Hgap HT.
    - destruct (init_started files d (Some v0) p0 Hinit)
        as (_ & _ & Ht & Hr & _).
      simpl. unfold advance. rewrite Ht. simpl. auto.
    - apply Forall_app in Hall as [Hall He].
      inversion He as [|? ? [He0 Hty] _]; subst.
      apply Forall_app in HT as [_ HTe].
      inversion HTe as [|? ? HTe' _]; subst.
      rewrite map_app in Hgap. simpl in Hgap.
      apply StronglySorted_snoc in Hgap as [Hgap Hlast].
      destruct e as [t v|t v]; [|discriminate].
      simpl in He0, HTe', Hlast.
      assert (Hsorted : StronglySorted Z.le (0%Z :: List.map event_time es)).
      { constructor.
        - eapply StronglySorted_impl; [|exact Hgap].
          intros a b. unfold debounce_delay. lia.
        - apply Forall_forall. intros x Hx.
          apply in_map_iff in Hx as [e [<- Hin]].
          rewrite Forall_forall in Hall. now apply Hall. }
      destruct (good_run files d v0 p0 es Hinit Hsorted) as (c & HG & Hc).
      assert (Hbefore :
                Forall (fun e => (event_time e + debounce_delay <= t)%Z) es).
      { rewrite Forall_forall in *. intros e Hin. apply Hlast.
        now apply in_map. }
      assert (Hct : (c <= t)%Z).
      { destruct Hc as [->|Hc]; [exact He0|].
        apply in_map_iff in Hc as [e [<- Hin]].
        rewrite Forall_forall in Hbefore. specialize (Hbefore e Hin).
        unfold debounce_delay in Hbefore. lia. }
      destruct (IH t Hall Hgap Hbefore) as [IHr _].
      unfold run. rewrite fold_left_app. cbn [fold_left].
      fold (run files es p0).
      destruct (typed_then_wait files es v0 c t T (run files es p0) v
                                HG Hct HTe') as [Hr Ht].
      split; [|exact Ht].
      rewrite Hr, IHr, map_app, rev_app_distr. reflexivity. }
  destruct Hlog as [Hr Ht].
  pose proof (linked_init d (Some v0) p0 Hinit) as HL.
  destruct (linked_advance _ T _ (linked_run _ es _ HL)) as [Hdoc Hfr].
  rewrite Hr in Hdoc, Hfr. auto.
Qed.

End Linked.

(* ------------------------------------------------------------------------- *)
(** ** Grouping, rendering and typing on the sample host *)

(** Two sorts that conform and differ: on [four], where the record with no
    date makes the comparator inconsistent, the sort of V8 and [sort_by]
    return different orders. *)
Example four_engines_differ :
  List.map title (v8_sort newest_first four) = ["T3"; "T1"; "T0"; "T2"] /\
  List.map title (sort_by newest_first four) = ["T1"; "T0"; "T2"; "T3"].
Proof. split; reflexivity. Qed.

(** Around the one record of [undated], and on [draft_old], the sort of V8
    returns what [sort_by] returns. *)
Example undated_on_v8 :
  groupWith (@v8_sort) undated = groupByCategory undated /\
  groupWith (@v8_sort) draft_old = groupByCategory draft_old.
Proof. split; reflexivity. Qed.

(** C6 as stated fails: on [seven] the sort of V8, which conforms, puts U6
    before U4, two records of one date that stand the other way round in
    the input. *)
Lemma group_stable_counterexample :
  (exists es,
      In ("A", es) (groupWith (@v8_sort) seven) /\
      List.map title es = ["U5"; "U6"; "U0"; "U1"; "U2"; "U3"; "U4"] /\
      List.map title (filter (has_key (Some 1704067200000%Z)) es)
      = ["U6"; "U4"] /\
      List.map title (filter (has_key (Some 1704067200000%Z))
                             (bucket "A" seven))
      = ["U4"; "U6"]) /\
  ~ (forall srt l k es t,
        conforming srt -> In (k, es) (groupWith srt l) ->
        filter (has_key t) es = filter (has_key t) (bucket k l)).
Proof.
  split.
  - eexists. split; [left; reflexivity|]. repeat split; reflexivity.
  - intros H.
    specialize (H (@v8_sort) seven "A" _ (Some 1704067200000%Z)
                  v8_sort_conforming (or_introl eq_refl)).
    vm_compute in H. discriminate.
Qed.

Lemma group_stable_witness :
  filter (has_key (Some 1704067200000%Z))
         [ mkFile "A" "New" "" "pdfs/3.pdf" "2025-01-01";
           mkFile "A" "First" "" "pdfs/1.pdf" "2024-01-01";
           mkFile "A" "Second" "" "pdfs/2.pdf" "2024-01-01" ]
  = filter (has_key (Some 1704067200000%Z)) (bucket "A" ties).
Proof.
  apply (group_stable (@v8_sort) ties "A").
  - exact v8_sort_conforming.
  - left. reflexivity.
  - repeat constructor; discriminate.
Defined.

Lemma group_lookup_witness :
  (In "A" (List.map category catalog) ->
   exists es,
     map_get "A" (groupWith (@v8_sort) catalog) = Some es /\
     Permutation es (bucket "A" catalog) /\
     (Forall parses (bucket "A" catalog) ->
      newest_to_oldest es /\
      forall t, filter (has_key t) es
                = filter (has_key t) (bucket "A" catalog))) /\
  (~ In "A" (List.map category catalog) ->
   map_get "A" (groupWith (@v8_sort) catalog) = None).
Proof.
  apply (group_lookup (@v8_sort) catalog "A"). exact v8_sort_conforming.
Defined.

Lemma malformed_date_policy_witness :
  (exists html,
      renderAll draft_old (mkDocument (Some EmptyString) 0)
      = Some (mkDocument (Some html) 1) /\
      includes html (renderCard draft) = true /\
      (Date_parse (updated draft ++ "T00:00:00") = None ->
       includes html ("          " ++ "Invalid Date" ++ nl ++ "        </time>")
       = true)) /\
  (forall g, SortCompare newest_first draft g = 0%Z /\
             SortCompare newest_first g draft = 0%Z) /\
  (forall a b, parses a -> parses b -> ~ not_older a b ->
               before newest_first a draft /\ before newest_first draft b /\
               ~ before newest_first a b) /\
  (forall srt, conforming srt ->
               (forall a b, In a (bucket (category draft) draft_old) ->
                            In b (bucket (category draft) draft_old) ->
                            tie newest_first a b = true) ->
               map_get (category draft) (groupWith srt draft_old)
               = Some (bucket (category draft) draft_old)).
Proof.
  apply (malformed_date_policy draft_old (mkDocument (Some EmptyString) 0)
                               EmptyString draft).
  - reflexivity.
  - left. reflexivity.
  - reflexivity.
Defined.

(** On [draft_old] all records tie, and the page shows [Invalid Date]. *)
Example draft_old_page :
  (forall a b, In a draft_old -> In b draft_old ->
               tie newest_first a b = true) /\
  Date_parse (updated draft ++ "T00:00:00") = None /\
  includes (page_html draft_old)
           ("          " ++ "Invalid Date" ++ nl ++ "        </time>") = true /\
  includes (page_html draft_old)
           ("          " ++ "soon" ++ nl ++ "        </time>") = false.
Proof.
  split; [|repeat split; reflexivity].
  intros a b [<-|[<-|[]]] [<-|[<-|[]]]; reflexivity.
Qed.

(** [formatDate] parses another text than [dateValue]: a date with a time
    of day has a sort key and still shows as [Invalid Date]. *)
Example formatDate_parses_another_text :
  dateValue "2024-01-01T10:00:00" = Some 1704103200000%Z /\
  formatDate "2024-01-01T10:00:00" = "Invalid Date".
Proof. split; reflexivity. Qed.

Lemma debounce_renders_witness :
  (length (timers (run files keystrokes started)) <= 1)%nat /\
  StronglySorted spaced
    (renders (advance files 1000 (run files keystrokes started))) /\
  (forall t v,
      In (t, v) (renders (advance files 1000 (run files keystrokes started)))
      -> v = value_at keystrokes EmptyString t) /\
  (length (renders (advance files 1000 (run files keystrokes started)))
   <= length (filter is_typed keystrokes))%nat /\
  app (doc (advance files 1000 (run files keystrokes started)))
  = Some (shown files
            (renders (advance files 1000 (run files keystrokes started)))) /\
  frames (doc (advance files 1000 (run files keystrokes started)))
  = (frames (doc started)
     + repaints files
         (renders (advance files 1000 (run files keystrokes started))))%nat /\
  (forall a b c,
      renders (advance files 1000
                 (run files [Typed 0 a; Typed 50 b; Typed 100 c] started))
      = (if (250 <=? 1000)%Z then [(250%Z, c)] else []) /\
      app (doc (advance files 1000
                  (run files [Typed 0 a; Typed 50 b; Typed 100 c] started)))
      = Some (if (250 <=? 1000)%Z
              then page_html (filterFiles files (trim c))
              else page_html files)).
Proof.
  apply (debounce_renders files (mkDocument (Some EmptyString) 0) EmptyString
                          started keystrokes 1000).
  - reflexivity.
  - unfold keystrokes. simpl.
    repeat first [apply SSorted_nil | apply SSorted_cons
                 | apply Forall_nil | apply Forall_cons]; lia.
Defined.

(** A search that finds nothing: the render at 250 ms leaves the
    placeholder in the container and asks for no animation frame. *)
Example keystrokes_no_match :
  app (doc (advance files 1000
              (run files [Typed 0 "z"; Typed 50 "zz"; Typed 100 "zzz"]
                   started)))
  = Some empty_state /\
  frames (doc (advance files 1000
                 (run files [Typed 0 "z"; Typed 50 "zz"; Typed 100 "zzz"]
                      started)))
  = frames (doc started) /\
  app (doc (advance files 249
              (run files [Typed 0 "z"; Typed 50 "zz"; Typed 100 "zzz"]
                   started)))
  = Some (page_html files).
Proof. repeat split; reflexivity. Qed.

Lemma slow_typing_renders_all_witness :
  renders (advance files 1000
             (run files [Typed 0 "p"; Typed 200 "py"; Typed 400 "pyz"]
                  started))
  = rev (List.map render_of [Typed 0 "p"; Typed 200 "py"; Typed 400 "pyz"]) /\
  timers (advance files 1000
            (run files [Typed 0 "p"; Typed 200 "py"; Typed 400 "pyz"]
                 started)) = [] /\
  app (doc (advance files 1000
              (run files [Typed 0 "p"; Typed 200 "py"; Typed 400 "pyz"]
                   started)))
  = Some (shown files
            (rev (List.map render_of
                           [Typed 0 "p"; Typed 200 "py"; Typed 400 "pyz"]))) /\
  frames (doc (advance files 1000
                 (run files [Typed 0 "p"; Typed 200 "py"; Typed 400 "pyz"]
                      started)))
  = (frames (doc started)
     + repaints files
         (rev (List.map render_of
                        [Typed 0 "p"; Typed 200 "py"; Typed 400 "pyz"])))%nat.
Proof.
  apply (slow_typing_renders_all files (mkDocument (Some EmptyString) 0)
                                 EmptyString started).
  - reflexivity.
  - repeat first [apply Forall_nil | apply Forall_cons];
      (split; [simpl; lia|reflexivity]).
  - simpl. unfold debounce_delay.
    repeat first [apply SSorted_nil | apply SSorted_cons
                 | apply Forall_nil | apply Forall_cons]; lia.
  - unfold debounce_delay.
    repeat first [apply Forall_nil | apply Forall_cons]; simpl; lia.
Defined.

Lemma search_keeps_order_witness :
  exists es0,
    In ("A", es0) (groupByCategory shelf) /\
    [ mkFile "A" "Gamma notes" "" "pdfs/gamma.pdf" "2024-01-01";
      mkFile "A" "Alpha notes" "" "pdfs/alpha.pdf" "2023-01-01" ]
    = filterFiles es0 "notes" /\
    subsequence
      [ mkFile "A" "Gamma notes" "" "pdfs/gamma.pdf" "2024-01-01";
        mkFile "A" "Alpha notes" "" "pdfs/alpha.pdf" "2023-01-01" ]
      es0.
Proof.
  apply (search_keeps_order shelf "notes" "A").
  - repeat constructor; discriminate.
  - left. reflexivity.
Defined.

(** On [shelf] the search for notes drops Beta from the bucket of A and
    leaves the other two where they were. *)
Example shelf_search :
  List.map title
           (List.concat (List.map snd (groupByCategory shelf)))
  = ["Beta"; "Gamma notes"; "Alpha notes"; "Delta notes"] /\
  List.map title
           (List.concat
              (List.map snd (groupByCategory (filterFiles shelf "notes"))))
  = ["Gamma notes"; "Alpha notes"; "Delta notes"].
Proof. split; reflexivity. Qed.

(** *** The two parses of the sample host

    On this host a text that does not parse does not parse either when
    [T00:00:00] follows it: a record with no sort key shows as
    [Invalid Date]. *)

Lemma digits_split (n : nat) (acc : Z) (s : string) (z : Z) (r : string) :
  digits n acc s = Some (z, r) ->
  exists h, s = h ++ r /\ String.length h = n /\
            forall r', digits n acc (h ++ r') = Some (z, r').
Proof.
  revert acc s. induction n as [|n IH]; intros acc s H; simpl in H.
  - inversion H; subst. exists EmptyString. auto.
  - destruct s as [|c s]; [discriminate|].
    destruct (digit c) as [dg|] eqn:Ec; [|discriminate].
    destruct (IH _ _ H) as (h & -> & Hl & Hh).
    exists (String c h). simpl. rewrite Ec, Hl. auto.
Qed.

Lemma expect_split (c : ascii) (s r : string) :
  expect c s = Some r -> s = String c r.
Proof.
  destruct s as [|d s]; simpl; [discriminate|].
  destruct (Ascii.eqb_spec c d) as [->|]; [|discriminate].
  now intros [= ->].
Qed.

Lemma time_of_day_length (r : string) :
  time_of_day r <> None -> r = EmptyString \/ String.length r = 9%nat.
Proof.
  destruct r as [|c0 r0]; [now left|]. intros H. right.
  remember (String c0 r0) as r eqn:Er. unfold time_of_day in H.
  rewrite Er in H. rewrite <- Er in H. clear Er c0 r0. unfold bind in H.
  destruct (expect "T" r) as [s1|] eqn:E1; [|contradiction].
  apply expect_split in E1. subst r.
  destruct (digits 2 0 s1) as [[hh s2]|] eqn:D1; [|contradiction].
  apply digits_split in D1 as (h1 & -> & L1 & _).
  destruct (expect ":" s2) as [s3|] eqn:E2; [|contradiction].
  apply expect_split in E2. subst s2.
  destruct (digits 2 0 s3) as [[mm s4]|] eqn:D2; [|contradiction].
  apply digits_split in D2 as (h2 & -> & L2 & _).
  destruct (expect ":" s4) as [s5|] eqn:E3; [|contradiction].
  apply expect_split in E3. subst s4.
  destruct (digits 2 0 s5) as [[ss s6]|] eqn:D3; [|contradiction].
  apply digits_split in D3 as (h3 & -> & L3 & _).
  destruct s6; [|contradiction].
  repeat (cbn [String.length]; rewrite ?length_append).
  cbn [String.length]. lia.
Qed.

Lemma iso_parse_split (x : string) :
  iso_parse x <> None ->
  exists dp r, x = dp ++ r /\ String.length dp = 10%nat /\
               time_of_day r <> None /\
               (forall r', time_of_day r' <> None ->
                           iso_parse (dp ++ r') <> None).
Proof.
  intros H. unfold iso_parse in H. unfold bind at 1 in H.
  destruct (digits 4 0 x) as [[y s1]|] eqn:D1; [|contradiction].
  apply digits_split in D1 as (h1 & -> & L1 & F1).
  unfold bind at 1 in H.
  destruct (expect "-" s1) as [s2|] eqn:E1; [|contradiction].
  apply expect_split in E1. subst s1.
  unfold bind at 1 in H.
  destruct (digits 2 0 s2) as [[m s3]|] eqn:D2; [|contradiction].
  apply digits_split in D2 as (h2 & -> & L2 & F2).
  unfold bind at 1 in H.
  destruct (expect "-" s3) as [s4|] eqn:E2; [|contradiction].
  apply expect_split in E2. subst s3.
  unfold bind at 1 in H.
  destruct (digits 2 0 s4) as [[dd s5]|] eqn:D3; [|contradiction].
  apply digits_split in D3 as (h3 & -> & L3 & F3).
  destruct ((1 <=? m) && (m <=? 12) && (1 <=? dd)
            && (dd <=? days_in_month y m))%Z eqn:V; [|contradiction].
  exists (h1 ++ String "-" (h2 ++ String "-" h3)), s5.
  split; [|split; [|split]].
  - rewrite !append_assoc. simpl. rewrite !append_assoc. reflexivity.
  - repeat (cbn [String.length]; rewrite ?length_append).
    cbn [String.length]. lia.
  - intros E. unfold bind in H. rewrite E in H. contradiction.
  - intros r' Hr'.
    replace ((h1 ++ String "-" (h2 ++ String "-" h3)) ++ r')
      with (h1 ++ String "-" (h2 ++ String "-" (h3 ++ r'))).
    + unfold iso_parse. rewrite F1. cbn [bind expect].
      rewrite Ascii.eqb_refl. cbn [bind]. rewrite F2. cbn [bind expect].
      rewrite Ascii.eqb_refl. cbn [bind]. rewrite F3. cbn [bind].
      rewrite V.
      destruct (time_of_day r'); [discriminate|contradiction].
    + rewrite !append_assoc. simpl. rewrite !append_assoc. reflexivity.
Qed.

Lemma append_inj_length (a a' b b' : string) :
  String.length a = String.length a' -> a ++ b = a' ++ b' ->
  a = a' /\ b = b'.
Proof.
  revert a'. induction a as [|c a IH]; intros [|c' a'] L E;
    simpl in *; try discriminate; [auto|].
  injection E as -> E. injection L as L.
  destruct (IH a' L E) as [-> ->]. auto.
Qed.

Lemma append_nil_r (a : string) : a ++ EmptyString = a.
Proof. induction a as [|c a IH]; simpl; [reflexivity|now rewrite IH]. Qed.

Lemma iso_parse_midnight (s : string) :
  iso_parse s = None -> iso_parse (s ++ "T00:00:00") = None.
Proof.
  intros Hs. destruct (iso_parse (s ++ "T00:00:00")) as [t|] eqn:E;
    [exfalso|reflexivity].
  assert (Hx : iso_parse (s ++ "T00:00:00") <> None) by (rewrite E; discriminate).
  destruct (iso_parse_split _ Hx) as (dp & r & Hsplit & Ldp & Hr & Hany).
  assert (Hlen : (String.length s + 9 = 10 + String.length r)%nat).
  { pose proof (f_equal String.length Hsplit) as Hl.
    rewrite !length_append in Hl. cbn [String.length] in Hl. lia. }
  destruct (time_of_day_length r Hr) as [->|Lr].
  - simpl in Hlen. destruct s as [|c [|c' s']]; simpl in Hlen; try lia.
    clear - E. unfold iso_parse in E. simpl in E.
    destruct (digit c); simpl in E; discriminate.
  - assert (Ls : String.length s = String.length dp) by lia.
    destruct (append_inj_length _ _ _ _ Ls Hsplit) as [-> _].
    apply (Hany EmptyString); [discriminate|].
    now rewrite append_nil_r.
Qed.

(** On the sample host, the card of a record with no sort key shows
    [Invalid Date], never the raw text. *)
Lemma undated_shows_invalid_date (f : FileObject) :
  dateValue (updated f) = None -> formatDate (updated f) = "Invalid Date".
Proof.
  intros H. unfold formatDate.
  change (Date_parse (updated f ++ "T00:00:00"))
    with (iso_parse (updated f ++ "T00:00:00")).
  now rewrite (iso_parse_midnight _ H).
Qed.

(** Typed slowly, the last value finds nothing: the page ends with the
    placeholder, and the two renders before it have asked for a frame
    each. *)
Example slow_typing_page :
  app (doc (advance files 1000
              (run files [Typed 0 "p"; Typed 200 "py"; Typed 400 "pyz"]
                   started)))
  = Some empty_state /\
  frames (doc (advance files 1000
                 (run files [Typed 0 "p"; Typed 200 "py"; Typed 400 "pyz"]
                      started)))
  = (frames (doc started) + 2)%nat.
Proof. split; reflexivity. Qed.
